(** * ZenVocab session queue engines: StudyMode and DictationMode

    A shallow embedding of the two session components of the vocabulary
    trainer ([components/StudyMode.tsx], [components/DictationMode.tsx])
    and of the data they exchange ([types.ts]), followed by the
    properties of the queue engines.

    How React is modelled.  A component's [useState] cells form a record
    [State].  An event handler is a closure created by one render: what it
    reads from its scope ([queue], [currentIndex], [sessionErrors],
    [learnedIds], ...) are the values of that render, while a functional
    update [setX(prev => ...)] is applied to the cell as it is when the
    handler runs.  A handler therefore takes two states, [render] (what the
    closure captured) and [st] (the cells it updates), and returns the
    updated cells together with the summary passed to [onComplete], if
    any.  Every cell a handler reads is listed in the dependency array of
    its [useCallback], so an event fired after a render has been committed
    runs the handler of that render: the session drivers call the handlers
    with [render = st], one event at a time.  The buttons that answer
    [vague] and [unknown] call [handleResponse] from a timer, 800 ms after
    the click, with the closure of the render that was clicked: in the
    session drivers that call is the next thing the component handles,
    and a call that another response has overtaken is a call with
    [render ≠ st], studied on its own.  A session ends when [onComplete]
    is called: the parent then leaves the session view. *)

From Stdlib Require Import Ascii String ZArith Lia.
From stdpp Require Import base list strings gmap.

Local Open Scope string_scope.
Local Open Scope list_scope.
Local Open Scope nat_scope.

(** ** Completion of a JavaScript call *)

(** A call either returns normally or completes abruptly with a thrown
    value; an event handler that bails out with [return;] is a normal
    completion. *)
Inductive Completion (A : Type) : Type :=
  | Returns (a : A)
  | Throws (err : string).
Arguments Returns {A} a.
Arguments Throws {A} err.

(** ** JavaScript strings

    Strings are sequences of code units; the model keeps the code units
    U+0000..U+00FF, on which [toLowerCase] and [trim] below are those of
    ECMAScript. *)
Module JS.

(** WhiteSpace and LineTerminator code points below U+0100: TAB, LF, VT,
    FF, CR, SP and NBSP. *)
Definition isWhiteSpace (c : ascii) : bool :=
  let n := N_of_ascii c in
  (((9 <=? n) && (n <=? 13)) || (n =? 32) || (n =? 160))%N.

(** Upper-case letters below U+0100: A-Z, and U+00C0..U+00DE without the
    multiplication sign U+00D7; each lower-case form is 32 further. *)
Definition isUpperCase (c : ascii) : bool :=
  let n := N_of_ascii c in
  (((65 <=? n) && (n <=? 90)) ||
   ((192 <=? n) && (n <=? 222) && negb (n =? 215)))%N.

Definition toLowerCaseUnit (c : ascii) : ascii :=
  if isUpperCase c then ascii_of_N (N_of_ascii c + 32) else c.

Fixpoint toLowerCase (s : string) : string :=
  match s with
  | EmptyString => EmptyString
  | String c s' => String (toLowerCaseUnit c) (toLowerCase s')
  end.

Fixpoint trimStart (s : string) : string :=
  match s with
  | EmptyString => EmptyString
  | String c s' => if isWhiteSpace c then trimStart s' else s
  end.

Fixpoint trimEnd (s : string) : string :=
  match s with
  | EmptyString => EmptyString
  | String c s' =>
      match trimEnd s' with
      | EmptyString => if isWhiteSpace c then EmptyString else String c EmptyString
      | t => String c t
      end
  end.

Definition trim (s : string) : string := trimEnd (trimStart s).

(** [arr.slice(0, end)] for an integer [end]: a negative [end] counts
    from the back, and a bound beyond the length is clamped. *)
Definition slice0 {A : Type} (end_ : Z) (arr : list A) : list A :=
  if (end_ <? 0)%Z
  then take (Z.to_nat (Z.max (Z.of_nat (length arr) + end_) 0)) arr
  else take (Z.to_nat end_) arr.

End JS.

(** ** [Set<string>]

    A JavaScript [Set] iterates in insertion order and holds no value
    twice: a duplicate-free list. *)
Module JSSet.

Definition t : Type := list string.

Definition empty : t := [].

Definition has (x : string) (s : t) : bool := bool_decide (x ∈ s).

(** [s.add(x)]: appended at the end unless present. *)
Definition add (x : string) (s : t) : t :=
  if has x s then s else s ++ [x].

(** [s.delete(x)]. *)
Definition delete (x : string) (s : t) : t :=
  filter (λ y, y ≠ x) s.

(** [new Set(arr)]: the elements are added from left to right. *)
Definition ofArray (arr : list string) : t :=
  foldl (λ s x, add x s) empty arr.

Definition size (s : t) : nat := length s.

(** [Array.from(s)]. *)
Definition toArray (s : t) : list string := s.

End JSSet.

(** ** types.ts *)

Module Word.
Record t : Type := mk
  { id : string;
    text : string;
    phonetic : string;
    definition : string }.
End Word.

Module ErrorRecord.
Inductive kind : Type := learning | dictation.

Record t : Type := mk
  { wordId : string;
    wordText : string;
    wordDefinition : string;
    wordPhonetic : string;
    date : string;
    type : kind }.
End ErrorRecord.

#[global] Instance Word_eq_dec : EqDecision Word.t.
Proof. solve_decision. Defined.

#[global] Instance ErrorRecord_kind_eq_dec : EqDecision ErrorRecord.kind.
Proof. solve_decision. Defined.

#[global] Instance ErrorRecord_eq_dec : EqDecision ErrorRecord.t.
Proof. solve_decision. Defined.

(** What a handler takes from its surroundings when it runs:
    [new Date().toISOString().split('T')[0]], and the value of the [k]-th
    call of [crypto.randomUUID()] it makes. *)
Record Ambient : Type :=
  { isoDate : string;
    randomUUID : nat → string }.

(** ** components/StudyMode.tsx *)
Module StudyMode.

Module QueueItem.
Record t : Type := mk
  { word : Word.t;
    id : string  (* unique instance id for list keys *) }.
End QueueItem.

Inductive ResponseType : Type := known | vague | unknown.

#[global] Instance ResponseType_eq_dec : EqDecision ResponseType.
Proof. solve_decision. Defined.

(** The value handed to [onComplete]. *)
Module Result.
Record t : Type := mk
  { reviewedCount : nat;
    errors : list ErrorRecord.t;
    learnedIds : list string }.
End Result.

(** The [useState] cells of the component. *)
Record State : Type := mkState
  { queue : list QueueItem.t;
    currentIndex : nat;
    isRevealed : bool;
    sessionErrors : list ErrorRecord.t;
    learnedIds : JSSet.t }.

Definition setQueue (q : list QueueItem.t) (s : State) : State :=
  mkState q (currentIndex s) (isRevealed s) (sessionErrors s) (learnedIds s).

Definition setCurrentIndex (i : nat) (s : State) : State :=
  mkState (queue s) i (isRevealed s) (sessionErrors s) (learnedIds s).

Definition setIsRevealed (b : bool) (s : State) : State :=
  mkState (queue s) (currentIndex s) b (sessionErrors s) (learnedIds s).

(** The two cells below are only ever set with a functional update. *)
Definition setSessionErrors (f : list ErrorRecord.t → list ErrorRecord.t)
    (s : State) : State :=
  mkState (queue s) (currentIndex s) (isRevealed s) (f (sessionErrors s))
    (learnedIds s).

Definition setLearnedIds (f : JSSet.t → JSSet.t) (s : State) : State :=
  mkState (queue s) (currentIndex s) (isRevealed s) (sessionErrors s)
    (f (learnedIds s)).

(** The cells as [useState] creates them. *)
Definition initialState : State := mkState [] 0 false [] JSSet.empty.

(** The "Initialize Queue" effect: the first [targetCount] words, each
    with a fresh instance id. *)
Definition initQueue (amb : Ambient) (words : list Word.t) (targetCount : Z)
    (s : State) : State :=
  let sessionWords := JS.slice0 targetCount words in
  let initialQueue :=
    imap (λ k w, QueueItem.mk w (randomUUID amb k)) sessionWords in
  setQueue initialQueue s.

Definition init (amb : Ambient) (words : list Word.t) (targetCount : Z) : State :=
  initQueue amb words targetCount initialState.

(** [queue[currentIndex]]; [None] stands for [undefined]. *)
Definition currentItem (s : State) : option QueueItem.t :=
  queue s !! currentIndex s.

(** [recordError]: the updater it passes to [setSessionErrors]. *)
Definition recordError (amb : Ambient) (word : Word.t)
    (prev : list ErrorRecord.t) : list ErrorRecord.t :=
  (* Avoid duplicate error entries for the same word in one session *)
  if existsb (λ e, bool_decide (ErrorRecord.wordId e = Word.id word)) prev
  then prev
  else prev ++ [ErrorRecord.mk (Word.id word) (Word.text word)
                  (Word.definition word) (Word.phonetic word)
                  (isoDate amb) ErrorRecord.learning].

(** [finishSession] is defined by the component but never called. *)
Definition finishSession (render : State) : Result.t :=
  let uniqueReviewed :=
    JSSet.size
      (JSSet.ofArray ((λ i, Word.id (QueueItem.word i)) <$> queue render)) in
  Result.mk uniqueReviewed (sessionErrors render) (JSSet.toArray (learnedIds render)).

(** [handleResponse(type)].  The summary is computed by the callback given
    to [setTimeout(..., 0)], from variables the callback captured when the
    handler ran ([learnedIds], [type], [currentWord], [nextQueue],
    [sessionErrors]): it is the value [onComplete] receives. *)
Definition handleResponse (amb : Ambient) (type : ResponseType)
    (render st : State) : Completion (State * option Result.t) :=
  match currentItem render with
  | None => Returns (st, None)
  | Some currentItem =>
      let currentWord := QueueItem.word currentItem in
      let fresh k := QueueItem.mk currentWord (randomUUID amb k) in
      let remove prev := JSSet.delete (Word.id currentWord) prev in
      (* Spaced Repetition Logic *)
      let '(nextQueue, st1) :=
        match type with
        | known =>
            (queue render,
             setLearnedIds (λ prev, JSSet.add (Word.id currentWord) prev) st)
        | vague =>
            (* Requirement: Appear 1 more time *)
            (queue render ++ [fresh 0],
             setLearnedIds remove
               (setSessionErrors (recordError amb currentWord) st))
        | unknown =>
            (* Requirement: Appear 3 times subsequently *)
            (queue render ++ [fresh 0] ++ [fresh 1] ++ [fresh 2],
             setLearnedIds remove
               (setSessionErrors (recordError amb currentWord) st))
        end in
      let nextIndex := currentIndex render + 1 in
      if bool_decide (length nextQueue ≤ nextIndex) then
        let finalLearned :=
          match type with
          | known => JSSet.add (Word.id currentWord) (learnedIds render)
          | _ => JSSet.delete (Word.id currentWord) (learnedIds render)
          end in
        let uniqueReviewed :=
          JSSet.size
            (JSSet.ofArray ((λ i, Word.id (QueueItem.word i)) <$> nextQueue)) in
        Returns (st1,
                 Some (Result.mk uniqueReviewed (sessionErrors render)
                         (JSSet.toArray finalLearned)))
      else
        Returns (setIsRevealed false
                   (setCurrentIndex nextIndex (setQueue nextQueue st1)),
                 None)
  end.

(** The window's [keydown] listener: Enter reveals the definition, and
    answers [known] once it is revealed. *)
Definition handleKeyDown (amb : Ambient) (key : string) (render st : State)
    : Completion (State * option Result.t) :=
  if bool_decide (key = "Enter") then
    if negb (isRevealed render) then Returns (setIsRevealed true st, None)
    else handleResponse amb known render st
  else Returns (st, None).

(** *** Sessions *)

(** What the user does, with the ambient values of that moment:
    [setIsRevealed(true)], which every button does first; a call of
    [handleResponse], by a button; a key press on the window. *)
Inductive Event : Type :=
  | Reveal
  | Respond (amb : Ambient) (type : ResponseType)
  | KeyDown (amb : Ambient) (key : string).

Definition dispatch (e : Event) (s : State)
    : Completion (State * option Result.t) :=
  match e with
  | Reveal => Returns (setIsRevealed true s, None)
  | Respond amb type => handleResponse amb type s s
  | KeyDown amb key => handleKeyDown amb key s s
  end.

(** The response an event gives in state [s], if it gives one. *)
Definition response (e : Event) (s : State) : option ResponseType :=
  match e with
  | Reveal => None
  | Respond _ type => Some type
  | KeyDown _ key =>
      if bool_decide (key = "Enter") && isRevealed s then Some known else None
  end.

(** What a call of [handleResponse] answers: the word under the cursor of
    the render it ran on, with the response given. *)
Definition answerTo (s : State) (type : ResponseType)
    : list (string * ResponseType) :=
  match currentItem s with
  | Some item => [(Word.id (QueueItem.word item), type)]
  | None => []
  end.

Definition answered (e : Event) (s : State) : list (string * ResponseType) :=
  match response e s with
  | Some type => answerTo s type
  | None => []
  end.

(** A run of a session: the answers given so far, the states the
    component went through, the cells when the run stopped, and the
    summary once [onComplete] has been called. *)
Record Run : Type := mkRun
  { answers : list (string * ResponseType);
    visited : list State;
    final : State;
    result : option Result.t }.

(** Events are handled one at a time, each by the handler of the latest
    render; the session is over when [onComplete] is called. *)
Fixpoint session (s : State) (events : list Event) : Run :=
  match events with
  | [] => mkRun [] [s] s None
  | e :: events' =>
      match dispatch e s with
      | Throws _ => mkRun [] [s] s None
      | Returns (s', Some summary) =>
          mkRun (answered e s) [s; s'] s' (Some summary)
      | Returns (s', None) =>
          let r := session s' events' in
          mkRun (answered e s ++ answers r) (s :: visited r) (final r)
            (result r)
      end
  end.

(** The same run, as the cells the component went through, each with the
    answers given up to then. *)
Fixpoint history (log : list (string * ResponseType)) (s : State)
    (events : list Event) : list (list (string * ResponseType) * State) :=
  match events with
  | [] => [(log, s)]
  | e :: events' =>
      match dispatch e s with
      | Throws _ => [(log, s)]
      | Returns (s', Some _) => [(log, s); (log ++ answered e s, s')]
      | Returns (s', None) => (log, s) :: history (log ++ answered e s) s' events'
      end
  end.

(** The last response given for word [w], if any. *)
Fixpoint lastResponse (w : string) (log : list (string * ResponseType))
    : option ResponseType :=
  match log with
  | [] => None
  | (w', type) :: log' =>
      match lastResponse w log' with
      | Some later => Some later
      | None => if bool_decide (w' = w) then Some type else None
      end
  end.

Definition wordIds (q : list QueueItem.t) : list string :=
  (λ i, Word.id (QueueItem.word i)) <$> q.

(** The word ids that occupied a queue entry in one of the states. *)
Definition everQueued (states : list State) : gset string :=
  ⋃ ((λ s, list_to_set (wordIds (queue s))) <$> states).

(** How many entries a response requeues (the 1x/3x rule). *)
Definition requeueCount (type : ResponseType) : nat :=
  match type with
  | known => 0
  | vague => 1
  | unknown => 3
  end.

(** *** Invariants of a session *)

(** What holds of the cells after the answers in [log] have been given:
    [learnedIds] holds the words whose last answer is [known]; the
    answers are those for the entries before the cursor, in order; every
    failed word has an error record; no two records share a word. *)
Record Inv (s : State) (log : list (string * ResponseType)) : Prop :=
  { inv_learned :
      ∀ w, w ∈ learnedIds s ↔ lastResponse w log = Some known;
    inv_cursor :
      log.*1 = wordIds (take (currentIndex s) (queue s));
    inv_errors :
      ∀ w type, (w, type) ∈ log → type ≠ known →
                w ∈ ErrorRecord.wordId <$> sessionErrors s;
    inv_nodup :
      NoDup (ErrorRecord.wordId <$> sessionErrors s) }.

End StudyMode.

(** ** components/DictationMode.tsx *)
Module DictationMode.

Inductive Feedback : Type := none | correct | incorrect.

#[global] Instance Feedback_eq_dec : EqDecision Feedback.
Proof. solve_decision. Defined.

(** The value handed to [onComplete]. *)
Module Result.
Record t : Type := mk
  { totalCount : nat;
    errors : list ErrorRecord.t;
    learnedIds : list string }.
End Result.

(** The [useState] cells the handlers read or write; [speed] and
    [showSpeedSettings] only concern audio playback and are left out. *)
Record State : Type := mkState
  { queue : list Word.t;
    currentIndex : nat;
    input : string;
    feedback : Feedback;
    sessionErrors : list ErrorRecord.t;
    learnedIds : list string }.

Definition setQueue (q : list Word.t) (s : State) : State :=
  mkState q (currentIndex s) (input s) (feedback s) (sessionErrors s)
    (learnedIds s).

Definition setCurrentIndex (f : nat → nat) (s : State) : State :=
  mkState (queue s) (f (currentIndex s)) (input s) (feedback s)
    (sessionErrors s) (learnedIds s).

Definition setInput (v : string) (s : State) : State :=
  mkState (queue s) (currentIndex s) v (feedback s) (sessionErrors s)
    (learnedIds s).

Definition setFeedback (fb : Feedback) (s : State) : State :=
  mkState (queue s) (currentIndex s) (input s) fb (sessionErrors s)
    (learnedIds s).

Definition setSessionErrors (f : list ErrorRecord.t → list ErrorRecord.t)
    (s : State) : State :=
  mkState (queue s) (currentIndex s) (input s) (feedback s)
    (f (sessionErrors s)) (learnedIds s).

Definition setLearnedIds (f : list string → list string) (s : State) : State :=
  mkState (queue s) (currentIndex s) (input s) (feedback s)
    (sessionErrors s) (f (learnedIds s)).

Definition initialState : State := mkState [] 0 "" none [] [].

(** The "Shuffle and slice" effect.  [shuffled] is the order in which
    [[...words].sort(() => 0.5 - Math.random())] left the words, whichever
    it is. *)
Definition initQueue (shuffled : list Word.t) (targetCount : Z) (s : State)
    : State :=
  setQueue (JS.slice0 targetCount shuffled) s.

Definition init (shuffled : list Word.t) (targetCount : Z) : State :=
  initQueue shuffled targetCount initialState.

(** [queue[currentIndex]]. *)
Definition currentWord (s : State) : option Word.t :=
  queue s !! currentIndex s.

(** [input.trim().toLowerCase() === currentWord.text.toLowerCase()]. *)
Definition isCorrect (input : string) (currentWord : Word.t) : bool :=
  bool_decide
    (JS.toLowerCase (JS.trim input) = JS.toLowerCase (Word.text currentWord)).

Definition errorRecord (amb : Ambient) (currentWord : Word.t) : ErrorRecord.t :=
  ErrorRecord.mk (Word.id currentWord) (Word.text currentWord)
    (Word.definition currentWord) (Word.phonetic currentWord)
    (isoDate amb) ErrorRecord.dictation.

(** [nextWord()]. *)
Definition nextWord (render st : State)
    : Completion (State * option Result.t) :=
  let st1 := setInput "" (setFeedback none st) in
  if bool_decide (length (queue render) ≤ currentIndex render + 1) then
    Returns (st1,
             Some (Result.mk (length (queue render)) (sessionErrors render)
                     (learnedIds render)))
  else
    Returns (setCurrentIndex (λ prev, prev + 1) st1, None).

(** [handleSubmit(e)]. *)
Definition handleSubmit (amb : Ambient) (render st : State) : Completion State :=
  match currentWord render with
  | None => Returns st
  | Some currentWord =>
      if bool_decide (feedback render ≠ none) then Returns st
      else if isCorrect (input render) currentWord then
        (* Mark as learned *)
        Returns (setLearnedIds (λ prev, prev ++ [Word.id currentWord])
                   (setFeedback correct st))
      else
        Returns (setSessionErrors (λ prev, prev ++ [errorRecord amb currentWord])
                   (setFeedback incorrect st))
  end.

(** The window's [keydown] listener: Enter goes to the next word once
    feedback is shown; Tab replays the audio, which touches no cell. *)
Definition handleKeyDown (key : string) (render st : State)
    : Completion (State * option Result.t) :=
  if bool_decide (key = "Enter") && bool_decide (feedback render ≠ none)
  then nextWord render st
  else Returns (st, None).

(** The button calling [nextWord] is rendered under
    [feedback === 'incorrect'] only. *)
Definition nextButtonRendered (render : State) : bool :=
  bool_decide (feedback render = incorrect).

(** *** Sessions *)

(** Calls into the component: typing into the field, submitting the
    form, a key press on the window, and [nextWord] itself, called
    whether or not a control for it is on screen (the sessions the user
    interface allows are among these). *)
Inductive Event : Type :=
  | Change (value : string)
  | Submit (amb : Ambient)
  | KeyDown (key : string)
  | Next.

Definition dispatch (e : Event) (s : State)
    : Completion (State * option Result.t) :=
  match e with
  | Change value => Returns (setInput value s, None)
  | Submit amb =>
      match handleSubmit amb s s with
      | Returns s' => Returns (s', None)
      | Throws err => Throws err
      end
  | KeyDown key => handleKeyDown key s s
  | Next => nextWord s s
  end.

Record Run : Type := mkRun
  { visited : list State;
    final : State;
    result : option Result.t }.

Fixpoint session (s : State) (events : list Event) : Run :=
  match events with
  | [] => mkRun [s] s None
  | e :: events' =>
      match dispatch e s with
      | Throws _ => mkRun [s] s None
      | Returns (s', Some summary) => mkRun [s; s'] s' (Some summary)
      | Returns (s', None) =>
          let r := session s' events' in
          mkRun (s :: visited r) (final r) (result r)
      end
  end.

(** The word ids that occupied a queue entry in one of the states. *)
Definition everQueued (states : list State) : gset string :=
  ⋃ ((λ s, list_to_set (Word.id <$> queue s)) <$> states).

(** The error records are those of entries up to the cursor, in queue
    order: entries before it, and the current one once it is graded. *)
Definition recorded (s : State) : Prop :=
  ErrorRecord.wordId <$> sessionErrors s `sublist_of`
    Word.id <$> take (currentIndex s + (if decide (feedback s = none) then 0 else 1))
                  (queue s).

End DictationMode.

(** ** Shapes of strings and sessions *)

Module JSString.

(** A string that is empty or starts with a character that is not
    whitespace. *)
Definition startsClean (s : string) : Prop :=
  match s with
  | EmptyString => True
  | String c _ => JS.isWhiteSpace c = false
  end.

End JSString.

(** ** The grading rule of dictation, character by character

    What it is for a typed text to match a word once surrounding
    whitespace is trimmed and letter case is ignored, stated on the
    characters themselves (code units below U+0100) and not through
    [JS.trim] and [JS.toLowerCase]. *)
Module Grading.

(** TAB, LF, VT, FF, CR, the space and the no-break space. *)
Definition whitespace (c : ascii) : Prop :=
  c ∈ ["009"%char; "010"%char; "011"%char; "012"%char; "013"%char;
       " "%char; "160"%char].

Fixpoint allWhitespace (s : string) : Prop :=
  match s with
  | EmptyString => True
  | String c s' => whitespace c ∧ allWhitespace s'
  end.

(** The last character of [String c s]. *)
Fixpoint lastChar (c : ascii) (s : string) : ascii :=
  match s with
  | EmptyString => c
  | String d s' => lastChar d s'
  end.

(** Neither the first nor the last character is whitespace. *)
Definition noSurroundingWhitespace (s : string) : Prop :=
  match s with
  | EmptyString => True
  | String c rest => ¬ whitespace c ∧ ¬ whitespace (lastChar c rest)
  end.

(** The capital letters: A to Z, and U+00C0 to U+00DE without the
    multiplication sign. *)
Definition capital (c : ascii) : Prop :=
  65 ≤ nat_of_ascii c ≤ 90 ∨
  (192 ≤ nat_of_ascii c ≤ 222 ∧ nat_of_ascii c ≠ 215).

(** [l] is the small letter of the capital [u]: 32 code units further. *)
Definition smallOf (u l : ascii) : Prop :=
  capital u ∧ nat_of_ascii l = nat_of_ascii u + 32.

(** The same character, or a capital and its small letter. *)
Definition sameLetter (c d : ascii) : Prop :=
  c = d ∨ smallOf c d ∨ smallOf d c.

(** The same text up to letter case: equally long, and the same letter
    at every position. *)
Fixpoint equalIgnoringCase (a b : string) : Prop :=
  match a, b with
  | EmptyString, EmptyString => True
  | String c a', String d b' => sameLetter c d ∧ equalIgnoringCase a' b'
  | _, _ => False
  end.

(** [typed] is [target] up to letter case, with whitespace around it. *)
Definition matches (typed target : string) : Prop :=
  ∃ pre core post,
    typed = pre +:+ core +:+ post ∧
    allWhitespace pre ∧ allWhitespace post ∧
    noSurroundingWhitespace core ∧
    equalIgnoringCase core target.

#[global] Instance whitespace_dec (c : ascii) : Decision (whitespace c).
Proof. unfold whitespace. apply _. Defined.

#[global] Instance sameLetter_dec (c d : ascii) : Decision (sameLetter c d).
Proof. unfold sameLetter, smallOf, capital. apply _. Defined.

End Grading.

(** Invariants of the study queue, relative to the initial queue [q0]. *)
Module StudySession.
Import StudyMode.

(** After the answers in [log]: there is an entry under the cursor (unless
    the session started empty); the initial queue is still the front of
    the queue, which only holds words of the initial queue and has grown
    by what the answers requeued; every error record is a learning record
    of a word that was failed; the learned set holds no id twice. *)
Record Shape (q0 : list QueueItem.t) (s : State)
    (log : list (string * ResponseType)) : Prop :=
  { shape_cursor : q0 ≠ [] → currentIndex s < length (queue s);
    shape_prefix : q0 `prefix_of` queue s;
    shape_words :
      ∀ item, item ∈ queue s → QueueItem.word item ∈ QueueItem.word <$> q0;
    shape_length :
      length (queue s) = length q0 + sum_list (requeueCount <$> log.*2);
    shape_failed :
      ∀ e, e ∈ sessionErrors s →
           ErrorRecord.type e = ErrorRecord.learning ∧
           ∃ type, (ErrorRecord.wordId e, type) ∈ log ∧ type ≠ known;
    shape_learned : NoDup (learnedIds s) }.

(** A key press of Enter. *)
Definition isEnter (e : Event) : bool :=
  match e with
  | KeyDown _ key => bool_decide (key = "Enter")
  | _ => false
  end.

End StudySession.

(** ** What DictationMode puts on screen *)
Module DictationView.
Import DictationMode.

(** The calls the rendered component lets the user make in state [s].
    Without a current word only the placeholder is shown; the text field
    is disabled once feedback is shown, and it is the only control that
    submits the form; the button for [nextWord] is rendered under
    [feedback === 'incorrect']; the [keydown] listener is always there. *)
Definition offered (e : Event) (s : State) : bool :=
  match e with
  | Change _ | Submit _ =>
      bool_decide (is_Some (currentWord s)) && bool_decide (feedback s = none)
  | KeyDown _ => true
  | Next => bool_decide (is_Some (currentWord s)) && nextButtonRendered s
  end.

(** A session made of calls the screen offered when they were made. *)
Fixpoint interactive (s : State) (events : list Event) : bool :=
  match events with
  | [] => true
  | e :: events' =>
      offered e s &&
      match dispatch e s with
      | Returns (s', None) => interactive s' events'
      | _ => true
      end
  end.

(** The entries graded so far: those before the cursor, and the current
    one once feedback is shown. *)
Definition gradedEntries (s : State) : list Word.t :=
  take (currentIndex s + (if decide (feedback s = none) then 0 else 1)) (queue s).

(** The ids of the words graded wrong, then of those graded right. *)
Definition gradedIds (errors : list ErrorRecord.t) (learnedIds : list string)
    : list string :=
  (ErrorRecord.wordId <$> errors) ++ learnedIds.

(** Every graded entry went to at most one of the two lists. *)
Definition gradedOnce (s : State) : Prop :=
  gradedIds (sessionErrors s) (learnedIds s) ⊆+ Word.id <$> gradedEntries s.

(** Every graded entry went to exactly one of the two lists, and feedback
    is only shown on a current word. *)
Definition gradedAll (s : State) : Prop :=
  gradedIds (sessionErrors s) (learnedIds s) ≡ₚ Word.id <$> gradedEntries s ∧
  (feedback s ≠ none → is_Some (currentWord s)).

End DictationView.

(** ** [Map<string, V>]

    A JavaScript [Map] iterates in the order in which its keys were first
    set; setting a key again replaces its value in place. *)
Module JSMap.

Definition t (V : Type) : Type := list (string * V).

Fixpoint set {V : Type} (k : string) (v : V) (m : t V) : t V :=
  match m with
  | [] => [(k, v)]
  | (k', v') :: m' =>
      if bool_decide (k' = k) then (k', v) :: m' else (k', v') :: set k v m'
  end.

(** [new Map(entries)]. *)
Definition ofEntries {V : Type} (entries : list (string * V)) : t V :=
  foldl (λ m '(k, v), set k v m) [] entries.

(** [Array.from(m.values())]. *)
Definition values {V : Type} (m : t V) : list V := m.*2.

Definition get {V : Type} (k : string) (m : t V) : option V :=
  snd <$> List.find (λ kv, bool_decide (kv.1 = k)) m.

End JSMap.

(** ** components/ErrorLog.tsx *)
Module ErrorLog.

Inductive Filter : Type := all | learning | dictation.

(** [e.type === filter] for a filter other than ['all']. *)
Definition hasType (filter : Filter) (e : ErrorRecord.t) : bool :=
  match filter, ErrorRecord.type e with
  | learning, ErrorRecord.learning => true
  | dictation, ErrorRecord.dictation => true
  | _, _ => false
  end.

Definition filteredErrors (filter : Filter) (errors : list ErrorRecord.t)
    : list ErrorRecord.t :=
  match filter with
  | all => errors
  | _ => List.filter (hasType filter) errors
  end.

(** Convert errors back to Words *)
Definition toWord (e : ErrorRecord.t) : Word.t :=
  Word.mk (ErrorRecord.wordId e) (ErrorRecord.wordText e)
    (ErrorRecord.wordPhonetic e) (ErrorRecord.wordDefinition e).

(** [confirmReview(mode)]: the words it hands to [onReview]. *)
Definition confirmReview (filteredErrors : list ErrorRecord.t) : list Word.t :=
  let reviewWords := toWord <$> filteredErrors in
  (* Remove duplicates *)
  let uniqueWords :=
    JSMap.values (JSMap.ofEntries ((λ item, (Word.id item, item)) <$> reviewWords)) in
  uniqueWords.

End ErrorLog.

(** ** App.tsx: the word books *)

Module WordBook.
Record t : Type := mk
  { id : string;
    name : string;
    words : list Word.t;
    learnedWordIds : list string;
    createdAt : Z }.
End WordBook.

Module App.

(** [selectedBookId] is a string or [null]; [!selectedBookId] holds of
    [null] and of the empty string. *)
Definition falsy (selectedBookId : option string) : bool :=
  match selectedBookId with
  | None => true
  | Some id => bool_decide (id = "")
  end.

(** [books.find(b => b.id === selectedBookId)]. *)
Definition activeBook (books : list WordBook.t) (selectedBookId : option string)
    : option WordBook.t :=
  List.find (λ b, bool_decide (Some (WordBook.id b) = selectedBookId)) books.

(** [updateLearnedWords(learnedIds)]: the updater it passes to [setBooks],
    or the books as they are when it returns early. *)
Definition updateLearnedWords (selectedBookId : option string)
    (learnedIds : list string) (prevBooks : list WordBook.t) : list WordBook.t :=
  if falsy selectedBookId || bool_decide (length learnedIds = 0) then prevBooks
  else
    (λ book,
       if bool_decide (Some (WordBook.id book) = selectedBookId) then
         (* Merge existing and new, remove duplicates *)
         let updatedLearned :=
           JSSet.toArray (JSSet.ofArray (WordBook.learnedWordIds book ++ learnedIds)) in
         WordBook.mk (WordBook.id book) (WordBook.name book) (WordBook.words book)
           updatedLearned (WordBook.createdAt book)
       else book) <$> prevBooks.

(** [getSessionWords()]: the review words in review mode, otherwise the
    words of the active book that are not learned yet. *)
Definition getSessionWords (isReviewingErrors : bool) (reviewWords : list Word.t)
    (activeBook : option WordBook.t) : list Word.t :=
  if isReviewingErrors then reviewWords
  else match activeBook with
       | None => []
       | Some book =>
           List.filter
             (λ w, negb (bool_decide (Word.id w ∈ WordBook.learnedWordIds book)))
             (WordBook.words book)
       end.

(** The props both session views are given: the session words, and as
    [targetCount] their number in review mode and the daily goal
    otherwise. *)
Definition targetCount (isReviewingErrors : bool) (wordsToStudy : list Word.t)
    (dailyGoal : Z) : Z :=
  if isReviewingErrors then Z.of_nat (length wordsToStudy) else dailyGoal.

End App.

(** * Worked sessions *)

Module Scenario.
Import StudyMode.

Definition digit (n : nat) : string := String (ascii_of_nat (48 + n)) "".

(** The ambient values of the [n]-th moment of a session. *)
Definition at_ (n : nat) : Ambient :=
  {| isoDate := "2024-05-01";
     randomUUID := λ k, "uuid-" +:+ digit n +:+ "-" +:+ digit k |}.

Definition amb : Ambient := at_ 0.

Definition A : Word.t := Word.mk "A" "apple" "/a/" "fruit".
Definition B : Word.t := Word.mk "B" "bread" "/b/" "food".

Definition B_failed : ErrorRecord.t :=
  ErrorRecord.mk "B" "bread" "food" "/b/" "2024-05-01" ErrorRecord.learning.

(** Words [A; B], [targetCount = 2]; [A] is answered [known], [B]
    [unknown], and the three requeued entries of [B] [known], the first of
    them from the keyboard. *)
Definition spec_events : list Event :=
  [Respond (at_ 1) known;
   Reveal; Respond (at_ 2) unknown;
   KeyDown (at_ 3) "Enter"; KeyDown (at_ 3) "Enter";
   Respond (at_ 4) known;
   Respond (at_ 5) known].

Definition spec_scenario : Run := session (init amb [A; B] 2) spec_events.

Definition spec_summary : Result.t := Result.mk 2 [B_failed] ["A"; "B"].

(** After [A] has been answered [known]: the cursor is on [B]. *)
Definition on_B : State :=
  final (session (init amb [A; B] 2) [Respond (at_ 1) known]).

(** A candidate list that holds [B] twice; both entries are answered
    [unknown], the six requeued ones [known]. *)
Definition twice_B_events : list Event :=
  [Respond (at_ 1) unknown; Respond (at_ 2) unknown;
   Respond (at_ 3) known; Respond (at_ 4) known; Respond (at_ 5) known;
   Respond (at_ 6) known; Respond (at_ 7) known; Respond (at_ 8) known].

Definition twice_B_summary : Result.t := Result.mk 1 [B_failed] ["B"].

(** Four presses of Enter on the words [A; B]. *)
Definition enter_events : list Event :=
  [KeyDown (at_ 1) "Enter"; KeyDown (at_ 2) "Enter";
   KeyDown (at_ 3) "Enter"; KeyDown (at_ 4) "Enter"].

Definition cat : Word.t := Word.mk "c" "cat" "/kat/" "feline".

Definition cat_failed : ErrorRecord.t :=
  ErrorRecord.mk "c" "cat" "feline" "/kat/" "2024-05-01" ErrorRecord.dictation.
Definition dog : Word.t := Word.mk "d" "dog" "/dog/" "canine".
Definition apple : Word.t := Word.mk "a" "apple" "/apl/" "fruit".

(** Dictation of [cat] alone, answered "dog". *)
Definition cat_events : list DictationMode.Event :=
  [DictationMode.Change "dog"; DictationMode.Submit (at_ 1);
   DictationMode.KeyDown "Enter"].

Definition cat_session : DictationMode.Run :=
  DictationMode.session (DictationMode.init [cat] 1) cat_events.

Definition cat_summary : DictationMode.Result.t :=
  DictationMode.Result.mk 1 [cat_failed] [].

(** The same session once "dog" has been submitted. *)
Definition cat_graded : DictationMode.State :=
  DictationMode.final
    (DictationMode.session (DictationMode.init [cat] 1)
       [DictationMode.Change "dog"; DictationMode.Submit (at_ 1)]).

(** Dictation of a list that holds [cat] twice, answered wrongly both
    times. *)
Definition repeated_word_session : DictationMode.Run :=
  DictationMode.session (DictationMode.init [cat; cat] 2)
    [DictationMode.Change "dog"; DictationMode.Submit (at_ 1); DictationMode.Next;
     DictationMode.Change "cot"; DictationMode.Submit (at_ 2); DictationMode.Next].

(** A relapse: [A] is answered [known], [B] [unknown]; of the three
    requeued entries of [B] the first is answered [known] and the second
    [vague], and what is left is answered [known]. *)
Definition relapse_events : list Event :=
  [Respond (at_ 1) known; Respond (at_ 2) unknown;
   Respond (at_ 3) known; Respond (at_ 4) vague;
   Respond (at_ 5) known; Respond (at_ 6) known].

(** The answers once [B] has been answered [vague] after [known], and the
    cells at that point. *)
Definition relapse_log : list (string * ResponseType) :=
  [("A", known); ("B", unknown); ("B", known); ("B", vague)].

Definition relapse_state : State :=
  final (session (init amb [A; B] 2) (take 4 relapse_events)).

(** The cells a call leaves. *)
Definition cells (c : Completion (State * option Result.t)) : State :=
  match c with
  | Returns (s, _) => s
  | Throws _ => initialState
  end.

(** Two timers in flight.  On the words [A; B]: the button [vague] is
    clicked on [A], which reveals the card and starts the first timer
    with the handler of that render; Enter answers [A] [known] and the
    cursor moves to [B]; the button [vague] is clicked on [B], which
    starts the second timer with the handler of the render that shows
    [B]; then the first timer fires. *)
Definition race_start : State := init amb [A; B] 2.
Definition race_clicked_A : State := setIsRevealed true race_start.
Definition race_on_B : State :=
  cells (handleKeyDown (at_ 1) "Enter" race_clicked_A race_clicked_A).
Definition race_clicked_B : State := setIsRevealed true race_on_B.
Definition race_timer_1 : State :=
  cells (handleResponse (at_ 2) vague race_start race_clicked_B).

(** The entries involved: the two initial ones, the one the first timer
    requeued for [A], the one the second requeues for [B]. *)
Definition entry_A : QueueItem.t := QueueItem.mk A "uuid-0-0".
Definition entry_B : QueueItem.t := QueueItem.mk B "uuid-0-1".
Definition requeued_A : QueueItem.t := QueueItem.mk A "uuid-2-0".
Definition requeued_B : QueueItem.t := QueueItem.mk B "uuid-3-0".

(** Typed texts for [apple]: with whitespace on both sides (two spaces
    and a TAB before, a space and a line feed after) and capitals in the
    middle; and with a letter missing. *)
Definition typed_apple : string :=
  "  " +:+ String "009"%char ("aPPLe " +:+ String "010"%char "").
Definition typed_aple : string := "aple".

(** Two word books; the second has [cat] learned already. *)
Definition fruit_book : WordBook.t := WordBook.mk "book-1" "Fruit" [A; B] [] 0.
Definition pets_book : WordBook.t := WordBook.mk "book-2" "Pets" [cat; dog] ["c"] 0.

(** An error log in which [B] was failed on two days. *)
Definition B_failed_again : ErrorRecord.t :=
  ErrorRecord.mk "B" "bread" "food" "/b/" "2024-05-02" ErrorRecord.learning.

Definition error_log : list ErrorRecord.t := [B_failed; cat_failed; B_failed_again].
End Scenario.

(** * Properties *)

(** ** [Set<string>] *)
Module JSSetFacts.
Import JSSet.

Lemma elem_of_add (x y : string) (s : t) : y ∈ add x s ↔ y = x ∨ y ∈ s.
Proof.
  unfold add, has. case_bool_decide as Hx.
  - split; [by right | intros [-> | ?]; done].
  - rewrite elem_of_app, list_elem_of_singleton. tauto.
Qed.

Lemma elem_of_delete (x y : string) (s : t) : y ∈ delete x s ↔ y ≠ x ∧ y ∈ s.
Proof. unfold delete. by rewrite list_elem_of_filter. Qed.

Lemma NoDup_add (x : string) (s : t) : NoDup s → NoDup (add x s).
Proof.
  intros Hs. unfold add, has. case_bool_decide as Hx; [done |].
  apply NoDup_app. split_and!; [done | | apply NoDup_singleton].
  intros y Hy ->%list_elem_of_singleton. done.
Qed.

Lemma foldl_add_spec (arr : list string) (acc : t) :
  NoDup acc →
  NoDup (foldl (λ s x, add x s) acc arr) ∧
  ∀ y, y ∈ foldl (λ s x, add x s) acc arr ↔ y ∈ acc ∨ y ∈ arr.
Proof.
  revert acc. induction arr as [| x arr IH]; intros acc Hacc; simpl.
  - split; [done |]. intros y. rewrite elem_of_nil. tauto.
  - destruct (IH (add x acc) (NoDup_add x acc Hacc)) as [Hnd Hel].
    split; [done |]. intros y.
    rewrite Hel, elem_of_add, elem_of_cons. tauto.
Qed.

Lemma NoDup_ofArray (arr : list string) : NoDup (ofArray arr).
Proof. apply foldl_add_spec, NoDup_nil_2. Qed.

Lemma elem_of_ofArray (arr : list string) (y : string) :
  y ∈ ofArray arr ↔ y ∈ arr.
Proof.
  unfold ofArray.
  destruct (foldl_add_spec arr empty (NoDup_nil_2)) as [_ ->].
  unfold empty. rewrite elem_of_nil. tauto.
Qed.

(** [new Set(arr).size] counts the distinct values of [arr]. *)
Lemma size_ofArray (arr : list string) :
  size (ofArray arr) = base.size (list_to_set arr : gset string).
Proof.
  unfold size. rewrite <- (size_list_to_set (C:=gset string) (ofArray arr))
    by apply NoDup_ofArray.
  f_equal. apply set_eq. intros y.
  by rewrite !elem_of_list_to_set, elem_of_ofArray.
Qed.

End JSSetFacts.

(** ** StudyMode *)
Module StudyFacts.
Import StudyMode.

Lemma currentItem_lt (s : State) (item : QueueItem.t) :
  currentItem s = Some item → currentIndex s < length (queue s).
Proof. apply lookup_lt_Some. Qed.

(** The three shapes of a call on an entry under the cursor. *)
Lemma handleResponse_known (amb : Ambient) (s : State) (item : QueueItem.t) :
  currentItem s = Some item →
  let w := Word.id (QueueItem.word item) in
  let s1 := setLearnedIds (λ prev, JSSet.add w prev) s in
  handleResponse amb known s s =
    if bool_decide (length (queue s) ≤ currentIndex s + 1)
    then Returns (s1, Some (Result.mk
                              (JSSet.size (JSSet.ofArray (wordIds (queue s))))
                              (sessionErrors s)
                              (JSSet.add w (learnedIds s))))
    else Returns (setIsRevealed false
                    (setCurrentIndex (currentIndex s + 1)
                       (setQueue (queue s) s1)), None).
Proof. intros H. unfold handleResponse. rewrite H. reflexivity. Qed.

Lemma handleResponse_requeue (amb : Ambient) (type : ResponseType)
    (s : State) (item : QueueItem.t) :
  currentItem s = Some item →
  type ≠ known →
  let word := QueueItem.word item in
  let extra :=
    imap (λ k _, QueueItem.mk word (randomUUID amb k))
      (replicate (requeueCount type) ()) in
  handleResponse amb type s s =
    Returns (setIsRevealed false
               (setCurrentIndex (currentIndex s + 1)
                  (setQueue (queue s ++ extra)
                     (setLearnedIds (JSSet.delete (Word.id word))
                        (setSessionErrors (recordError amb word) s)))),
             None).
Proof.
  intros H Hty. pose proof (currentItem_lt _ _ H) as Hlt.
  unfold handleResponse. rewrite H.
  destruct type; [done | |]; cbn zeta beta iota;
    (rewrite bool_decide_eq_false_2;
       [reflexivity | rewrite ?length_app; simpl; lia]).
Qed.

(** A call that emits a summary is a [known] response on the last entry. *)
Lemma handleResponse_summary_inv (amb : Ambient) (type : ResponseType)
    (s s' : State) (summary : Result.t) :
  handleResponse amb type s s = Returns (s', Some summary) →
  ∃ item,
    currentItem s = Some item ∧ type = known ∧
    length (queue s) = currentIndex s + 1 ∧
    s' = setLearnedIds (λ prev, JSSet.add (Word.id (QueueItem.word item)) prev) s ∧
    summary = Result.mk (JSSet.size (JSSet.ofArray (wordIds (queue s))))
                (sessionErrors s)
                (JSSet.add (Word.id (QueueItem.word item)) (learnedIds s)).
Proof.
  intros Hcall. destruct (currentItem s) as [item |] eqn:H.
  - exists item. destruct (decide (type = known)) as [-> | Hty].
    + rewrite (handleResponse_known amb s item H) in Hcall. cbn zeta in Hcall.
      pose proof (currentItem_lt _ _ H).
      case_bool_decide; [| done]. injection Hcall as <- <-.
      split_and!; [done | done | lia | done | done].
    + by rewrite (handleResponse_requeue amb type s item H Hty) in Hcall.
  - unfold handleResponse in Hcall. by rewrite H in Hcall.
Qed.

Lemma handleResponse_idle (amb : Ambient) (type : ResponseType) (s : State) :
  currentItem s = None → handleResponse amb type s s = Returns (s, None).
Proof. intros H. unfold handleResponse. by rewrite H. Qed.

(** *** The error accumulator *)

Lemma recordError_incl (amb : Ambient) (word : Word.t)
    (prev : list ErrorRecord.t) (e : ErrorRecord.t) :
  e ∈ prev → e ∈ recordError amb word prev.
Proof.
  intros He. unfold recordError.
  destruct (existsb _ prev); [done |]. apply elem_of_app. by left.
Qed.

Lemma recordError_has (amb : Ambient) (word : Word.t) (prev : list ErrorRecord.t) :
  Word.id word ∈ ErrorRecord.wordId <$> recordError amb word prev.
Proof.
  unfold recordError.
  destruct (existsb _ prev) eqn:Hex.
  - apply Is_true_true, existb_True, Exists_exists in Hex as (e & He & Heq).
    apply bool_decide_unpack in Heq. rewrite <- Heq.
    by apply list_elem_of_fmap_2.
  - rewrite fmap_app. apply elem_of_app. right. simpl. apply list_elem_of_here.
Qed.

Lemma recordError_NoDup (amb : Ambient) (word : Word.t) (prev : list ErrorRecord.t) :
  NoDup (ErrorRecord.wordId <$> prev) →
  NoDup (ErrorRecord.wordId <$> recordError amb word prev).
Proof.
  intros Hnd. unfold recordError.
  destruct (existsb _ prev) eqn:Hex; [done |].
  rewrite fmap_app. apply NoDup_app. split_and!; [done | | apply NoDup_singleton].
  intros w Hw Hw'. simpl in Hw'. apply list_elem_of_singleton in Hw' as ->.
  apply list_elem_of_fmap in Hw as (e & Heq & He).
  apply not_true_iff_false in Hex. apply Hex.
  apply Is_true_true, existb_True, Exists_exists.
  exists e. split; [done |]. by apply bool_decide_pack.
Qed.

(** *** The log of answers *)

Lemma lastResponse_app (w : string) (log1 log2 : list (string * ResponseType)) :
  lastResponse w (log1 ++ log2) =
    match lastResponse w log2 with
    | Some later => Some later
    | None => lastResponse w log1
    end.
Proof.
  induction log1 as [| [w' r] log1 IH]; simpl.
  - by destruct (lastResponse w log2).
  - rewrite IH. by destruct (lastResponse w log2).
Qed.

Lemma lastResponse_snoc (w w' : string) (type : ResponseType)
    (log : list (string * ResponseType)) :
  lastResponse w (log ++ [(w', type)]) =
    if bool_decide (w' = w) then Some type else lastResponse w log.
Proof. rewrite lastResponse_app. simpl. by case_bool_decide. Qed.

Lemma lastResponse_is_Some (w : string) (log : list (string * ResponseType)) :
  w ∈ log.*1 → is_Some (lastResponse w log).
Proof.
  induction log as [| [w' r] log IH]; simpl; intros Hw.
  - by apply elem_of_nil in Hw.
  - destruct (lastResponse w log) eqn:Hl; [done |].
    apply elem_of_cons in Hw as [-> | Hw].
    + by rewrite bool_decide_eq_true_2.
    + by destruct (IH Hw).
Qed.

Lemma answerTo_Some (s : State) (item : QueueItem.t) (type : ResponseType) :
  currentItem s = Some item →
  answerTo s type = [(Word.id (QueueItem.word item), type)].
Proof. intros H. unfold answerTo. by rewrite H. Qed.

(** An event either is a call of [handleResponse] or leaves the queue, the
    cursor, the errors and the learned set alone. *)
Lemma dispatch_cases (e : Event) (s s' : State) (summary : option Result.t) :
  dispatch e s = Returns (s', summary) →
  (∃ amb type, response e s = Some type ∧
               handleResponse amb type s s = Returns (s', summary)) ∨
  (response e s = None ∧ summary = None ∧
   queue s' = queue s ∧ currentIndex s' = currentIndex s ∧
   sessionErrors s' = sessionErrors s ∧ learnedIds s' = learnedIds s).
Proof.
  destruct e as [| amb type | amb key]; simpl.
  - intros [= <- <-]. by right.
  - intros Hcall. left. by exists amb, type.
  - unfold handleKeyDown. case_bool_decide; simpl.
    + destruct (isRevealed s); simpl.
      * intros Hcall. left. by exists amb, known.
      * intros [= <- <-]. by right.
    + intros [= <- <-]. by right.
Qed.

(** An advance handled by the render that shows the entry, no other
    response having been handled since, leaves every entry of the queue
    in place and appends, at the tail, entries for the same word: none
    for [known], exactly one for [vague], exactly three for [unknown]. *)
Theorem requeue_appends_at_tail (amb : Ambient) (type : ResponseType)
    (s : State) (item : QueueItem.t) :
  currentItem s = Some item →
  ∃ s' summary extra,
    handleResponse amb type s s = Returns (s', summary) ∧
    queue s' = queue s ++ extra ∧
    length extra = requeueCount type ∧
    ∀ e, e ∈ extra → QueueItem.word e = QueueItem.word item.
Proof.
  intros H. destruct (decide (type = known)) as [-> | Hty].
  - rewrite (handleResponse_known amb s item H). cbn zeta.
    case_bool_decide; do 2 eexists; exists [];
      (split_and!; [reflexivity | simpl; by rewrite app_nil_r | done |]);
      intros e He; by apply elem_of_nil in He.
  - rewrite (handleResponse_requeue amb type s item H Hty). cbn zeta.
    do 3 eexists. split_and!; [reflexivity | reflexivity | |].
    + by rewrite length_imap, length_replicate.
    + intros e He. destruct type; [done | |]; simpl in He;
        repeat (apply elem_of_cons in He as [-> | He]; [done |]);
        by apply elem_of_nil in He.
Qed.

Lemma requeue_appends_at_tail_witness :
  ∃ s' summary extra,
    handleResponse (Scenario.at_ 2) unknown Scenario.on_B Scenario.on_B
      = Returns (s', summary) ∧
    queue s' = queue Scenario.on_B ++ extra ∧
    length extra = 3 ∧
    ∀ e, e ∈ extra → QueueItem.word e = Scenario.B.
Proof.
  apply (requeue_appends_at_tail (Scenario.at_ 2) unknown Scenario.on_B
           (QueueItem.mk Scenario.B "uuid-0-1")).
  reflexivity.
Defined.

(** C10.  A [vague] or [unknown] response never finalizes: the cursor
    moves by one and stays strictly below the length of the new queue,
    and no summary is emitted.  Hence a call that does emit a summary was
    a [known] response on the entry under the cursor, and that word's id
    is in the summary's [learnedIds]. *)
Theorem finalizes_only_on_known :
  (∀ amb type s item,
     currentItem s = Some item → type ≠ known →
     ∃ s', handleResponse amb type s s = Returns (s', None) ∧
           currentIndex s' = currentIndex s + 1 ∧
           currentIndex s' < length (queue s')) ∧
  (∀ amb type s s' summary,
     handleResponse amb type s s = Returns (s', Some summary) →
     type = known ∧
     ∃ item, currentItem s = Some item ∧
             Word.id (QueueItem.word item) ∈ Result.learnedIds summary).
Proof.
  split.
  - intros amb type s item H Hty.
    rewrite (handleResponse_requeue amb type s item H Hty). cbn zeta.
    eexists. split_and!; [reflexivity | reflexivity |].
    pose proof (currentItem_lt _ _ H) as Hlt. simpl.
    rewrite length_app, length_imap, length_replicate.
    destruct type; [done | |]; simpl; lia.
  - intros amb type s s' summary Hcall.
    destruct (currentItem s) as [item |] eqn:H.
    + destruct (decide (type = known)) as [-> | Hty].
      * split; [done |]. exists item. split; [done |].
        rewrite (handleResponse_known amb s item H) in Hcall. cbn zeta in Hcall.
        case_bool_decide; [| done]. injection Hcall as _ <-. simpl.
        unfold JSSet.toArray. apply JSSetFacts.elem_of_add. by left.
      * by rewrite (handleResponse_requeue amb type s item H Hty) in Hcall.
    + unfold handleResponse in Hcall. by rewrite H in Hcall.
Qed.

Lemma finalizes_only_on_known_witness :
  (∃ s', handleResponse Scenario.amb vague
           (init Scenario.amb [Scenario.A] 1) (init Scenario.amb [Scenario.A] 1)
         = Returns (s', None) ∧
         currentIndex s' = 1 ∧ currentIndex s' < length (queue s')) ∧
  (known = known ∧
   ∃ item, currentItem (init Scenario.amb [Scenario.A] 1) = Some item ∧
           Word.id (QueueItem.word item) ∈ ["A"]).
Proof.
  split.
  - apply (proj1 finalizes_only_on_known Scenario.amb vague
             (init Scenario.amb [Scenario.A] 1)
             (QueueItem.mk Scenario.A "uuid-0-0")); [reflexivity | discriminate].
  - apply (proj2 finalizes_only_on_known Scenario.amb known
             (init Scenario.amb [Scenario.A] 1)
             (setLearnedIds (λ prev, JSSet.add "A" prev)
                (init Scenario.amb [Scenario.A] 1))
             (Result.mk 1 [] ["A"])).
    reflexivity.
Defined.

Lemma Inv_init (amb : Ambient) (words : list Word.t) (targetCount : Z) :
  Inv (init amb words targetCount) [].
Proof.
  split; simpl.
  - intros w. unfold JSSet.empty. rewrite elem_of_nil. naive_solver.
  - done.
  - intros w type Hin. by apply elem_of_nil in Hin.
  - apply NoDup_nil_2.
Qed.

Lemma Inv_known (s : State) (log : list (string * ResponseType))
    (item : QueueItem.t) :
  currentItem s = Some item →
  Inv s log →
  Inv (setIsRevealed false
         (setCurrentIndex (currentIndex s + 1)
            (setQueue (queue s)
               (setLearnedIds (λ prev, JSSet.add (Word.id (QueueItem.word item)) prev) s))))
      (log ++ [(Word.id (QueueItem.word item), known)]).
Proof.
  intros H [Hl Hc He Hn]. split; simpl.
  - intros w. rewrite JSSetFacts.elem_of_add, lastResponse_snoc, Hl.
    case_bool_decide as Hw; [subst; tauto |].
    split; [intros [-> | ?]; done | by right].
  - rewrite fmap_app, Hc, Nat.add_1_r, (take_S_r _ _ _ H).
    unfold wordIds. by rewrite fmap_app.
  - intros w type [Hin | Hin]%elem_of_app Hty; [by eapply He |].
    apply list_elem_of_singleton in Hin. by inversion Hin.
  - done.
Qed.

Lemma Inv_requeue (amb : Ambient) (s : State)
    (log : list (string * ResponseType)) (item : QueueItem.t)
    (type : ResponseType) (extra : list QueueItem.t) :
  currentItem s = Some item →
  type ≠ known →
  Inv s log →
  Inv (setIsRevealed false
         (setCurrentIndex (currentIndex s + 1)
            (setQueue (queue s ++ extra)
               (setLearnedIds (JSSet.delete (Word.id (QueueItem.word item)))
                  (setSessionErrors (recordError amb (QueueItem.word item)) s)))))
      (log ++ [(Word.id (QueueItem.word item), type)]).
Proof.
  intros H Hty [Hl Hc He Hn]. pose proof (currentItem_lt _ _ H) as Hlt.
  split; simpl.
  - intros w. rewrite JSSetFacts.elem_of_delete, lastResponse_snoc, Hl.
    case_bool_decide as Hw.
    + subst. split; [by intros [? _] | intros [=]; done].
    + split; [by intros [_ ?] | by split].
  - rewrite fmap_app, Hc, Nat.add_1_r, take_app_le by lia.
    rewrite (take_S_r _ _ _ H). unfold wordIds. by rewrite fmap_app.
  - intros w ty [Hin | Hin]%elem_of_app Hne.
    + pose proof (He w ty Hin Hne) as Hw.
      apply list_elem_of_fmap in Hw as (e & -> & Hin').
      apply list_elem_of_fmap_2. by apply recordError_incl.
    + apply list_elem_of_singleton in Hin. inversion Hin; subst.
      apply recordError_has.
  - by apply recordError_NoDup.
Qed.

Lemma Inv_frame (s s' : State) (log : list (string * ResponseType)) :
  queue s' = queue s → currentIndex s' = currentIndex s →
  sessionErrors s' = sessionErrors s → learnedIds s' = learnedIds s →
  Inv s log → Inv s' log.
Proof.
  intros Hq Hi He Hl [? ? ? ?]. split; by rewrite ?Hq, ?Hi, ?He, ?Hl.
Qed.

(** One call that does not end the session keeps the invariant. *)
Lemma Inv_handleResponse (amb : Ambient) (type : ResponseType) (s s' : State)
    (log : list (string * ResponseType)) :
  Inv s log →
  handleResponse amb type s s = Returns (s', None) →
  Inv s' (log ++ answerTo s type).
Proof.
  intros HI Hcall. destruct (currentItem s) as [item |] eqn:H.
  - rewrite (answerTo_Some s item type H).
    destruct (decide (type = known)) as [-> | Hty].
    + rewrite (handleResponse_known amb s item H) in Hcall. cbn zeta in Hcall.
      case_bool_decide; [done |]. injection Hcall as <-. by apply Inv_known.
    + rewrite (handleResponse_requeue amb type s item H Hty) in Hcall.
      cbn zeta in Hcall. injection Hcall as <-. by apply Inv_requeue.
  - rewrite (handleResponse_idle amb type s H) in Hcall. injection Hcall as <-.
    unfold answerTo. rewrite H. by rewrite app_nil_r.
Qed.

Lemma Inv_step (e : Event) (s s' : State) (log : list (string * ResponseType)) :
  Inv s log →
  dispatch e s = Returns (s', None) →
  Inv s' (log ++ answered e s).
Proof.
  intros HI Hcall. unfold answered.
  destruct (dispatch_cases _ _ _ _ Hcall)
    as [(amb & type & -> & Hresp) | (-> & _ & Hq & Hi & He & Hl)].
  - by eapply Inv_handleResponse.
  - rewrite app_nil_r. by eapply Inv_frame.
Qed.

(** A completed session ends with one call that emits the summary, made
    in a state that satisfies the invariant. *)
Lemma session_completed (events : list Event) (s : State)
    (log : list (string * ResponseType)) (summary : Result.t) :
  Inv s log →
  result (session s events) = Some summary →
  ∃ amb type s0 log0,
    Inv s0 log0 ∧
    handleResponse amb type s0 s0 = Returns (final (session s events), Some summary) ∧
    log ++ answers (session s events) = log0 ++ answerTo s0 type.
Proof.
  revert s log. induction events as [| e events IH]; intros s log HI Hres.
  - done.
  - simpl in *.
    destruct (dispatch e s) as [[s' [sm |]] | err] eqn:Hcall; simpl in *.
    + injection Hres as ->. unfold answered.
      destruct (dispatch_cases _ _ _ _ Hcall)
        as [(amb & type & -> & Hresp) | (_ & [=] & _)].
      by exists amb, type, s, log.
    + destruct (IH s' (log ++ answered e s) (Inv_step _ _ _ _ HI Hcall) Hres)
        as (amb' & type' & s0 & log0 & HI0 & Hcall0 & Hlog).
      exists amb', type', s0, log0. split_and!; [done | done |].
      by rewrite app_assoc.
    + done.
Qed.

(** *** The learned set *)

(** One call, whatever render it was created in: the word it answers is
    put into the cell [learnedIds] by [known] and taken out of it by
    [vague] and [unknown], and no other word is touched. *)
Lemma handleResponse_learned (amb : Ambient) (type : ResponseType)
    (render st st' : State) (item : QueueItem.t) (summary : option Result.t) :
  currentItem render = Some item →
  handleResponse amb type render st = Returns (st', summary) →
  learnedIds st' =
    match type with
    | known => JSSet.add (Word.id (QueueItem.word item)) (learnedIds st)
    | _ => JSSet.delete (Word.id (QueueItem.word item)) (learnedIds st)
    end ∧
  ∀ sm, summary = Some sm →
        type = known ∧
        Result.learnedIds sm =
          JSSet.add (Word.id (QueueItem.word item)) (learnedIds render).
Proof.
  intros H Hcall. pose proof (currentItem_lt _ _ H) as Hlt.
  unfold handleResponse in Hcall. rewrite H in Hcall.
  destruct type; cbn zeta beta iota in Hcall.
  - case_bool_decide; injection Hcall as <- <-; (split; [done |]);
      [by intros sm [= <-] | done].
  - rewrite bool_decide_eq_false_2 in Hcall
      by (rewrite length_app; simpl; lia).
    injection Hcall as <- <-. by split.
  - rewrite bool_decide_eq_false_2 in Hcall
      by (rewrite !length_app; simpl; lia).
    injection Hcall as <- <-. by split.
Qed.

(** Hence "the last response decides" is kept by every call, in the order
    in which the calls are handled. *)
Lemma learned_after_call (amb : Ambient) (type : ResponseType)
    (render st st' : State) (summary : option Result.t)
    (log : list (string * ResponseType)) :
  (∀ w, w ∈ learnedIds st ↔ lastResponse w log = Some known) →
  handleResponse amb type render st = Returns (st', summary) →
  ∀ w, w ∈ learnedIds st' ↔
       lastResponse w (log ++ answerTo render type) = Some known.
Proof.
  intros Hl Hcall w. destruct (currentItem render) as [item |] eqn:H.
  - destruct (handleResponse_learned _ _ _ _ _ _ _ H Hcall) as [-> _].
    rewrite (answerTo_Some render item type H), lastResponse_snoc.
    destruct type.
    + rewrite JSSetFacts.elem_of_add, Hl.
      case_bool_decide as Hw; [subst; tauto |].
      split; [intros [-> | ?]; done | by right].
    + rewrite JSSetFacts.elem_of_delete, Hl. case_bool_decide as Hw.
      * subst. split; [by intros [? _] | intros [=]].
      * split; [by intros [_ ?] | by split].
    + rewrite JSSetFacts.elem_of_delete, Hl. case_bool_decide as Hw.
      * subst. split; [by intros [? _] | intros [=]].
      * split; [by intros [_ ?] | by split].
  - unfold handleResponse in Hcall. rewrite H in Hcall.
    injection Hcall as <- <-. unfold answerTo. rewrite H, app_nil_r. apply Hl.
Qed.

Lemma learned_after_event (e : Event) (s s' : State)
    (summary : option Result.t) (log : list (string * ResponseType)) :
  (∀ w, w ∈ learnedIds s ↔ lastResponse w log = Some known) →
  dispatch e s = Returns (s', summary) →
  ∀ w, w ∈ learnedIds s' ↔ lastResponse w (log ++ answered e s) = Some known.
Proof.
  intros Hl Hcall. unfold answered.
  destruct (dispatch_cases _ _ _ _ Hcall)
    as [(amb & type & -> & Hresp) | (-> & _ & _ & _ & _ & Heq)].
  - by eapply learned_after_call.
  - intros w. by rewrite app_nil_r, Heq.
Qed.

Lemma history_learned (events : list Event) (s : State)
    (log0 : list (string * ResponseType)) :
  (∀ w, w ∈ learnedIds s ↔ lastResponse w log0 = Some known) →
  ∀ log s', (log, s') ∈ history log0 s events →
            ∀ w, w ∈ learnedIds s' ↔ lastResponse w log = Some known.
Proof.
  revert s log0. induction events as [| e events IH]; intros s log0 Hl log s' Hin.
  - simpl in Hin. apply list_elem_of_singleton in Hin as [= -> ->]. done.
  - simpl in Hin.
    destruct (dispatch e s) as [[s1 [sm |]] | err] eqn:Hcall.
    + apply elem_of_cons in Hin as [[= -> ->] | Hin]; [done |].
      apply list_elem_of_singleton in Hin as [= -> ->].
      by eapply learned_after_event.
    + apply elem_of_cons in Hin as [[= -> ->] | Hin]; [done |].
      eapply IH; [| exact Hin]. by eapply learned_after_event.
    + apply list_elem_of_singleton in Hin as [= -> ->]. done.
Qed.

Lemma history_visited (events : list Event) (s : State)
    (log0 : list (string * ResponseType)) :
  (history log0 s events).*2 = visited (session s events).
Proof.
  revert s log0. induction events as [| e events IH]; intros s log0; [done |].
  simpl. destruct (dispatch e s) as [[s1 [sm |]] | err]; simpl; [done | | done].
  by rewrite IH.
Qed.

(** C2.  The last response decides.  A call of [handleResponse], whatever
    render it was created in, puts the word it answers into [learnedIds]
    if the response is [known] and takes it out if it is [vague] or
    [unknown], and touches no other word; so membership follows the last
    response in the order in which the calls are handled.  In a session,
    at every point, the ids in [learnedIds] are those of the words whose
    last response so far is [known]: a [known] after a [vague] or
    [unknown] puts the id back, a [vague] or [unknown] after a [known]
    takes it out.  In the summary of a completed session a word's id is
    in [learnedIds] exactly when its last response was [known], and every
    word of the queue has been given a response by then. *)
Theorem last_response_decides_learned :
  (∀ amb type render st st' summary item,
     currentItem render = Some item →
     handleResponse amb type render st = Returns (st', summary) →
     (type = known → Word.id (QueueItem.word item) ∈ learnedIds st') ∧
     (type ≠ known → Word.id (QueueItem.word item) ∉ learnedIds st') ∧
     (∀ w, w ≠ Word.id (QueueItem.word item) →
           (w ∈ learnedIds st' ↔ w ∈ learnedIds st)) ∧
     (∀ log,
        (∀ w, w ∈ learnedIds st ↔ lastResponse w log = Some known) →
        ∀ w, w ∈ learnedIds st' ↔
             lastResponse w (log ++ answerTo render type) = Some known)) ∧
  (∀ amb words targetCount events,
     (∀ log s,
        (log, s) ∈ history [] (init amb words targetCount) events →
        ∀ w, w ∈ learnedIds s ↔ lastResponse w log = Some known) ∧
     (history [] (init amb words targetCount) events).*2
       = visited (session (init amb words targetCount) events) ∧
     (∀ summary,
        result (session (init amb words targetCount) events) = Some summary →
        (∀ w, w ∈ Result.learnedIds summary ↔
              lastResponse w (answers (session (init amb words targetCount) events))
                = Some known) ∧
        (∀ w, w ∈ wordIds (queue (final (session (init amb words targetCount) events))) →
              is_Some (lastResponse w
                         (answers (session (init amb words targetCount) events)))))).
Proof.
  split.
  - intros amb type render st st' summary item H Hcall.
    destruct (handleResponse_learned _ _ _ _ _ _ _ H Hcall) as [Heq _].
    split_and!.
    + intros ->. rewrite Heq. apply JSSetFacts.elem_of_add. by left.
    + intros Hty. rewrite Heq.
      destruct type; [done | |]; rewrite JSSetFacts.elem_of_delete;
        by intros [? _].
    + intros w Hw. rewrite Heq.
      destruct type;
        rewrite ?JSSetFacts.elem_of_add, ?JSSetFacts.elem_of_delete;
        split; try tauto; intros [? | ?]; done.
    + intros log Hl. by eapply learned_after_call.
  - intros amb words targetCount events. split_and!.
    + apply history_learned. intros w. simpl. unfold JSSet.empty.
      rewrite elem_of_nil. split; [done | discriminate].
    + apply history_visited.
    + intros summary Hres.
      destruct (session_completed events _ [] summary
                  (Inv_init amb words targetCount) Hres)
        as (amb' & type & s0 & log0 & [Hl Hc _ _] & Hcall & Hlog).
      simpl in Hlog. rewrite Hlog. clear Hlog.
      destruct (handleResponse_summary_inv _ _ _ _ _ Hcall)
        as (item & H & -> & Hlen & -> & ->).
      rewrite (answerTo_Some s0 item known H). simpl. split.
      * intros w. rewrite JSSetFacts.elem_of_add, lastResponse_snoc, Hl.
        case_bool_decide as Hw; [subst; tauto |].
        split; [intros [-> | ?]; done | by right].
      * intros w Hw. apply lastResponse_is_Some.
        rewrite fmap_app, Hc. simpl.
        rewrite <- (take_ge (queue s0) (currentIndex s0 + 1)) in Hw by lia.
        rewrite Nat.add_1_r, (take_S_r _ _ _ H) in Hw.
        unfold wordIds in *. by rewrite fmap_app in Hw.
Qed.

(** On the words [A; B]: once [B] has been answered [known] and then
    [vague] its id is out of [learnedIds], and it is back in the summary
    after the later [known]; and a [vague] for [A] that is handled after
    [A] was answered [known] from the keyboard takes [A] out. *)
Lemma last_response_decides_learned_witness :
  ((∀ w, w ∈ learnedIds Scenario.relapse_state ↔
         lastResponse w Scenario.relapse_log = Some known) ∧
   learnedIds Scenario.relapse_state = ["A"] ∧
   lastResponse "B" Scenario.relapse_log = Some vague) ∧
  ((∀ w, w ∈ ["A"; "B"] ↔
         lastResponse w
           (answers (session (init Scenario.amb [Scenario.A; Scenario.B] 2)
                       Scenario.relapse_events)) = Some known) ∧
   lastResponse "B"
     (answers (session (init Scenario.amb [Scenario.A; Scenario.B] 2)
                 Scenario.relapse_events)) = Some known) ∧
  (learnedIds Scenario.race_clicked_B = ["A"] ∧
   "A" ∉ learnedIds Scenario.race_timer_1).
Proof.
  destruct (proj2 last_response_decides_learned Scenario.amb
              [Scenario.A; Scenario.B] 2%Z Scenario.relapse_events)
    as (Hhistory & _ & Hsummary).
  split_and!.
  - apply (Hhistory Scenario.relapse_log Scenario.relapse_state).
    vm_compute. do 4 apply list_elem_of_further. apply list_elem_of_here.
  - reflexivity.
  - reflexivity.
  - apply (Hsummary (Result.mk 2 [Scenario.B_failed] ["A"; "B"])). reflexivity.
  - reflexivity.
  - reflexivity.
  - apply (proj1 last_response_decides_learned (Scenario.at_ 2) vague
             Scenario.race_start Scenario.race_clicked_B Scenario.race_timer_1
             None Scenario.entry_A).
    + reflexivity.
    + reflexivity.
    + discriminate.
Defined.

(** C8.  A [known] response leaves the queue and the error accumulator
    as they are, and the summary it may emit carries that accumulator
    unchanged; so in a completed session a word that was answered
    [vague] or [unknown] and whose last response is [known] has its
    error record in the summary's [errors] and its id in [learnedIds]. *)
Theorem known_keeps_errors_and_queue :
  (∀ amb s item,
     currentItem s = Some item →
     ∃ s' summary,
       handleResponse amb known s s = Returns (s', summary) ∧
       queue s' = queue s ∧
       sessionErrors s' = sessionErrors s ∧
       ∀ sm, summary = Some sm → Result.errors sm = sessionErrors s) ∧
  (∀ amb words targetCount events summary w type,
     result (session (init amb words targetCount) events) = Some summary →
     (w, type) ∈ answers (session (init amb words targetCount) events) →
     type ≠ known →
     lastResponse w (answers (session (init amb words targetCount) events))
       = Some known →
     w ∈ ErrorRecord.wordId <$> Result.errors summary ∧
     w ∈ Result.learnedIds summary).
Proof.
  split.
  - intros amb s item H.
    rewrite (handleResponse_known amb s item H). cbn zeta.
    case_bool_decide; do 2 eexists;
      (split_and!; [reflexivity | done | done |]); [| done].
    by intros sm [= <-].
  - intros amb words targetCount events summary w type Hres Hin Hty Hlast.
    destruct (session_completed events _ [] summary
                (Inv_init amb words targetCount) Hres)
      as (amb' & ty & s0 & log0 & [Hl _ He _] & Hcall & Hlog).
    simpl in Hlog. rewrite Hlog in Hin, Hlast. clear Hlog.
    destruct (handleResponse_summary_inv _ _ _ _ _ Hcall)
      as (item & H & -> & Hlen & _ & ->).
    rewrite (answerTo_Some s0 item known H) in Hin, Hlast. simpl. split.
    + apply elem_of_app in Hin as [Hin | Hin]; [by eapply He |].
      apply list_elem_of_singleton in Hin. by inversion Hin; subst.
    + rewrite lastResponse_snoc in Hlast.
      apply JSSetFacts.elem_of_add.
      case_bool_decide as Hw; [by left | right; by apply Hl].
Qed.

Lemma known_keeps_errors_and_queue_witness :
  "B" ∈ ErrorRecord.wordId <$> Result.errors Scenario.spec_summary ∧
  "B" ∈ Result.learnedIds Scenario.spec_summary.
Proof.
  apply (proj2 known_keeps_errors_and_queue Scenario.amb [Scenario.A; Scenario.B] 2%Z
           Scenario.spec_events Scenario.spec_summary "B" unknown).
  - reflexivity.
  - vm_compute. apply list_elem_of_further, list_elem_of_here.
  - discriminate.
  - reflexivity.
Defined.

(** C9 (as the code has it).  A call made while the queue is empty or the
    cursor is past its end is dropped by the guard [if (!currentItem)
    return;]: the handler returns normally, updates no cell and emits no
    summary, whatever render and cells it runs on. *)
Theorem advance_out_of_range_is_ignored (amb : Ambient) (type : ResponseType)
    (render st : State) :
  length (queue render) ≤ currentIndex render →
  handleResponse amb type render st = Returns (st, None).
Proof.
  intros Hge. unfold handleResponse, currentItem.
  by rewrite (lookup_ge_None_2 _ _ Hge).
Qed.

Lemma advance_out_of_range_is_ignored_witness :
  handleResponse Scenario.amb unknown
    (init Scenario.amb [Scenario.A; Scenario.B] 0)
    (init Scenario.amb [Scenario.A; Scenario.B] 0)
  = Returns (init Scenario.amb [Scenario.A; Scenario.B] 0, None).
Proof.
  apply (advance_out_of_range_is_ignored Scenario.amb unknown
           (init Scenario.amb [Scenario.A; Scenario.B] 0)
           (init Scenario.amb [Scenario.A; Scenario.B] 0)).
  simpl. lia.
Defined.

(** C9 as stated fails: on an empty queue the call is not reported, it
    returns like any other and nothing thrown reaches the caller. *)
Lemma advance_on_empty_queue_not_reported :
  handleResponse Scenario.amb known initialState initialState
    = Returns (initialState, None) ∧
  ∀ err, handleResponse Scenario.amb known initialState initialState ≠ Throws err.
Proof. split; [reflexivity | intros err; discriminate]. Qed.

(** *** Summaries of completed sessions *)



Lemma handleResponse_queue (amb : Ambient) (type : ResponseType) (s s' : State)
    (summary : option Result.t) :
  handleResponse amb type s s = Returns (s', summary) →
  ∃ extra, queue s' = queue s ++ extra.
Proof.
  intros Hcall. destruct (currentItem s) as [item |] eqn:H.
  - destruct (decide (type = known)) as [-> | Hty].
    + rewrite (handleResponse_known amb s item H) in Hcall. cbn zeta in Hcall.
      exists []. rewrite app_nil_r.
      case_bool_decide; by injection Hcall as <- <-.
    + rewrite (handleResponse_requeue amb type s item H Hty) in Hcall.
      cbn zeta in Hcall. injection Hcall as <- <-. by eexists.
  - rewrite (handleResponse_idle amb type s H) in Hcall.
    injection Hcall as <- <-. exists []. by rewrite app_nil_r.
Qed.

Lemma dispatch_grows (e : Event) (s s' : State) (summary : option Result.t) :
  dispatch e s = Returns (s', summary) →
  ∃ extra, queue s' = queue s ++ extra.
Proof.
  intros Hcall.
  destruct (dispatch_cases _ _ _ _ Hcall)
    as [(amb & type & _ & Hresp) | (_ & _ & Hq & _)].
  - by eapply handleResponse_queue.
  - exists []. by rewrite app_nil_r.
Qed.

Lemma everQueued_cons (s : State) (states : list State) :
  everQueued (s :: states) = list_to_set (wordIds (queue s)) ∪ everQueued states.
Proof. done. Qed.

Lemma visited_head (events : list Event) (s : State) :
  ∃ rest, visited (session s events) = s :: rest.
Proof.
  destruct events as [| e events]; simpl; [by eexists |].
  destruct (dispatch e s) as [[s' [sm |]] | err]; by eexists.
Qed.

(** The queue only grows, so the ids that ever occupied an entry are those
    of the final queue, which is what [reviewedCount] counts. *)
Lemma session_reviewedCount (events : list Event) (s : State) (summary : Result.t) :
  result (session s events) = Some summary →
  everQueued (visited (session s events))
    = list_to_set (wordIds (queue (final (session s events)))) ∧
  Result.reviewedCount summary = size (everQueued (visited (session s events))).
Proof.
  revert s. induction events as [| e events IH]; intros s Hres; [done |].
  simpl in *.
  destruct (dispatch e s) as [[s' [sm |]] | err] eqn:Hcall;
    simpl in *; [| | done].
  - injection Hres as ->.
    destruct (dispatch_cases _ _ _ _ Hcall)
      as [(amb & type & _ & Hresp) | (_ & [=] & _)].
    destruct (handleResponse_summary_inv _ _ _ _ _ Hresp)
      as (item & H & -> & Hlen & -> & ->).
    rewrite !everQueued_cons. simpl.
    assert (everQueued [] = ∅) as -> by done.
    rewrite (right_id_L ∅ (∪)), (idemp_L (∪)).
    by rewrite JSSetFacts.size_ofArray.
  - destruct (IH s' Hres) as [Hever Hcount].
    destruct (visited_head events s') as [rest Hrest].
    destruct (dispatch_grows _ _ _ _ Hcall) as [extra Hq].
    assert (list_to_set (wordIds (queue s)) ⊆ everQueued (visited (session s' events)))
      as Hsub.
    { rewrite Hrest, everQueued_cons, Hq. unfold wordIds.
      rewrite fmap_app, list_to_set_app_L, <- (assoc_L (∪)).
      apply union_subseteq_l. }
    rewrite everQueued_cons, (subseteq_union_1_L _ _ Hsub). done.
Qed.

End StudyFacts.

(** ** DictationMode *)
Module DictationFacts.
Import DictationMode.

Lemma handleSubmit_pending (amb : Ambient) (s : State) (w : Word.t) :
  currentWord s = Some w →
  feedback s = none →
  handleSubmit amb s s =
    if isCorrect (input s) w
    then Returns (setLearnedIds (λ prev, prev ++ [Word.id w]) (setFeedback correct s))
    else Returns (setSessionErrors (λ prev, prev ++ [errorRecord amb w])
                    (setFeedback incorrect s)).
Proof.
  intros H Hfb. unfold handleSubmit. rewrite H, Hfb.
  by rewrite bool_decide_eq_false_2 by (intros Hne; by apply Hne).
Qed.

Lemma handleSubmit_graded (amb : Ambient) (render st : State) :
  feedback render ≠ none → handleSubmit amb render st = Returns st.
Proof.
  intros Hfb. unfold handleSubmit.
  destruct (currentWord render); [| done]. by rewrite bool_decide_eq_true_2.
Qed.

(** The comparison a submission makes, as the handler writes it: the
    entry is graded correct exactly when [JS.toLowerCase (JS.trim input)]
    is the lower-cased text of the current word; a match appends the
    word's id to [learnedIds], a mismatch appends an error record. *)
Theorem submit_grades_exact_match (amb : Ambient) (s : State) (w : Word.t) :
  currentWord s = Some w →
  feedback s = none →
  ∃ s',
    handleSubmit amb s s = Returns s' ∧
    (feedback s' = correct ↔
       JS.toLowerCase (JS.trim (input s)) = JS.toLowerCase (Word.text w)) ∧
    (JS.toLowerCase (JS.trim (input s)) = JS.toLowerCase (Word.text w) →
       feedback s' = correct ∧
       learnedIds s' = learnedIds s ++ [Word.id w] ∧
       sessionErrors s' = sessionErrors s) ∧
    (JS.toLowerCase (JS.trim (input s)) ≠ JS.toLowerCase (Word.text w) →
       feedback s' = incorrect ∧
       sessionErrors s' = sessionErrors s ++ [errorRecord amb w] ∧
       ErrorRecord.wordId (errorRecord amb w) = Word.id w ∧
       learnedIds s' = learnedIds s).
Proof.
  intros H Hfb. rewrite (handleSubmit_pending amb s w H Hfb).
  unfold isCorrect. case_bool_decide as Heq; eexists;
    (split; [reflexivity |]); simpl; by split_and!.
Qed.

Lemma submit_grades_exact_match_witness :
  ∃ s',
    handleSubmit Scenario.amb
      (setInput "Apple " (init [Scenario.apple] 1))
      (setInput "Apple " (init [Scenario.apple] 1)) = Returns s' ∧
    feedback s' = correct ∧ learnedIds s' = ["a"] ∧ sessionErrors s' = [].
Proof.
  destruct (submit_grades_exact_match Scenario.amb
              (setInput "Apple " (init [Scenario.apple] 1)) Scenario.apple
              eq_refl eq_refl)
    as (s' & Hcall & _ & Hmatch & _).
  exists s'. split; [exact Hcall |]. apply Hmatch. reflexivity.
Defined.

Lemma nextWord_cases (render st : State) :
  nextWord render st =
    if bool_decide (length (queue render) ≤ currentIndex render + 1)
    then Returns (setInput "" (setFeedback none st),
                  Some (Result.mk (length (queue render)) (sessionErrors render)
                          (learnedIds render)))
    else Returns (setCurrentIndex (λ prev, prev + 1)
                    (setInput "" (setFeedback none st)), None).
Proof. done. Qed.

(** C7 (as the code has it).  An entry is graded once: a submit on a
    pending entry leaves it graded, and a second submit before advancing
    changes no cell.  [nextWord] does not look at the feedback: called on
    a pending entry it moves the cursor, or emits the summary on the last
    entry.  Advancing a pending entry is kept out by the interface alone:
    the Enter key reaches [nextWord] only once feedback is shown, and the
    button for it is not rendered on a pending entry. *)
Theorem entry_state_machine :
  (∀ amb s w,
     currentWord s = Some w → feedback s = none →
     ∃ s', handleSubmit amb s s = Returns s' ∧ feedback s' ≠ none ∧
           currentIndex s' = currentIndex s) ∧
  (∀ amb render st,
     feedback render ≠ none → handleSubmit amb render st = Returns st) ∧
  (∀ s,
     feedback s = none → currentIndex s + 1 < length (queue s) →
     ∃ s', nextWord s s = Returns (s', None) ∧
           currentIndex s' = currentIndex s + 1) ∧
  (∀ s,
     feedback s = none → length (queue s) ≤ currentIndex s + 1 →
     ∃ s' summary, nextWord s s = Returns (s', Some summary)) ∧
  (∀ key render st,
     feedback render = none →
     handleKeyDown key render st = Returns (st, None) ∧
     nextButtonRendered render = false).
Proof.
  split_and!.
  - intros amb s w H Hfb. rewrite (handleSubmit_pending amb s w H Hfb).
    destruct (isCorrect (input s) w); eexists; by split_and!.
  - apply handleSubmit_graded.
  - intros s _ Hlt. rewrite nextWord_cases.
    rewrite bool_decide_eq_false_2 by lia. by eexists.
  - intros s _ Hge. rewrite nextWord_cases.
    rewrite bool_decide_eq_true_2 by lia. by do 2 eexists.
  - intros key render st Hfb. unfold handleKeyDown, nextButtonRendered.
    rewrite Hfb. split; [| done].
    rewrite (bool_decide_eq_false_2 (none ≠ none)) by (intros Hne; by apply Hne).
    by rewrite andb_false_r.
Qed.

Lemma entry_state_machine_witness :
  (handleSubmit Scenario.amb Scenario.cat_graded Scenario.cat_graded
   = Returns Scenario.cat_graded) ∧
  (∃ s', nextWord (init [Scenario.cat; Scenario.dog] 2)
           (init [Scenario.cat; Scenario.dog] 2) = Returns (s', None) ∧
         currentIndex s' = 0 + 1) ∧
  (handleKeyDown "Enter" (init [Scenario.cat; Scenario.dog] 2)
     (init [Scenario.cat; Scenario.dog] 2)
   = Returns (init [Scenario.cat; Scenario.dog] 2, None) ∧
   nextButtonRendered (init [Scenario.cat; Scenario.dog] 2) = false).
Proof.
  destruct entry_state_machine as (_ & Htwice & Hmove & _ & Hgate).
  split; [| split].
  - apply Htwice. discriminate.
  - apply (Hmove (init [Scenario.cat; Scenario.dog] 2)); [reflexivity | simpl; lia].
  - apply Hgate. reflexivity.
Defined.

(** C7 as stated fails: [nextWord] on an entry that is still pending is
    not rejected; it moves the cursor from the first entry to the second,
    and on a one-word queue it emits a summary. *)
Lemma advance_while_pending_proceeds :
  feedback (init [Scenario.cat; Scenario.dog] 2) = none ∧
  (nextWord (init [Scenario.cat; Scenario.dog] 2)
     (init [Scenario.cat; Scenario.dog] 2)
   = Returns (mkState [Scenario.cat; Scenario.dog] 1 "" none [] [], None)) ∧
  (nextWord (init [Scenario.cat] 1) (init [Scenario.cat] 1)
   = Returns (init [Scenario.cat] 1, Some (Result.mk 1 [] []))).
Proof. by split_and!. Qed.

(** *** Sessions *)

Lemma dispatch_queue (e : Event) (s s' : State) (summary : option Result.t) :
  dispatch e s = Returns (s', summary) → queue s' = queue s.
Proof.
  destruct e as [value | amb | key |]; simpl.
  - by intros [= <- <-].
  - unfold handleSubmit. destruct (currentWord s) as [w |]; [| by intros [= <- <-]].
    case_bool_decide; [by intros [= <- <-] |].
    destruct (isCorrect (input s) w); by intros [= <- <-].
  - unfold handleKeyDown. rewrite nextWord_cases.
    destruct (_ && _); [| by intros [= <- <-]].
    case_bool_decide; by intros [= <- <-].
  - rewrite nextWord_cases. case_bool_decide; by intros [= <- <-].
Qed.

(** A summary comes from [nextWord] and reports the cells it ran on. *)
Lemma dispatch_summary (e : Event) (s s' : State) (summary : Result.t) :
  dispatch e s = Returns (s', Some summary) →
  nextWord s s = Returns (s', Some summary) ∧
  summary = Result.mk (length (queue s)) (sessionErrors s) (learnedIds s) ∧
  sessionErrors s' = sessionErrors s ∧ learnedIds s' = learnedIds s.
Proof.
  assert (∀ o, nextWord s s = Returns (s', Some summary) → o = nextWord s s →
               o = Returns (s', Some summary) ∧
               summary = Result.mk (length (queue s)) (sessionErrors s) (learnedIds s) ∧
               sessionErrors s' = sessionErrors s ∧ learnedIds s' = learnedIds s)
    as Hnext.
  { intros o Hcall ->. split; [done |]. rewrite nextWord_cases in Hcall.
    case_bool_decide; [| done]. by injection Hcall as <- <-. }
  destruct e as [value | amb | key |]; simpl.
  - done.
  - by destruct (handleSubmit amb s s).
  - unfold handleKeyDown. destruct (_ && _); [| done].
    intros Hcall. by apply Hnext.
  - intros Hcall. by apply Hnext.
Qed.

Lemma queued_cons (s : State) (states : list State) :
  everQueued (s :: states) = list_to_set (Word.id <$> queue s) ∪ everQueued states.
Proof. done. Qed.

(** The queue is fixed once and for all: the summary counts its entries,
    and the ids that ever occupied an entry are those of its words. *)
Lemma session_totalCount (events : list Event) (s : State) (summary : Result.t) :
  result (session s events) = Some summary →
  Result.totalCount summary = length (queue s) ∧
  everQueued (visited (session s events)) = list_to_set (Word.id <$> queue s).
Proof.
  revert s. induction events as [| e events IH]; intros s Hres; [done |].
  simpl in *.
  destruct (dispatch e s) as [[s' [sm |]] | err] eqn:Hcall; simpl in *; [| | done].
  - injection Hres as ->.
    pose proof (dispatch_queue _ _ _ _ Hcall) as Hq.
    destruct (dispatch_summary _ _ _ _ Hcall) as (_ & -> & _).
    split; [done |]. rewrite !queued_cons, Hq.
    assert (everQueued [] = ∅) as -> by done.
    by rewrite (right_id_L ∅ (∪)), (idemp_L (∪)).
  - pose proof (dispatch_queue _ _ _ _ Hcall) as Hq.
    destruct (IH s' Hres) as [Hcount Hever].
    rewrite queued_cons, Hever, Hcount, Hq.
    by rewrite (idemp_L (∪)).
Qed.

(** *** One error record per failed entry *)

Lemma take_sublist_le {A : Type} (l : list A) (n m : nat) :
  n ≤ m → take n l `sublist_of` take m l.
Proof.
  intros Hle. replace n with (n `min` m) by lia.
  rewrite <- take_take. apply sublist_take.
Qed.

Lemma recorded_init (shuffled : list Word.t) (targetCount : Z) :
  recorded (init shuffled targetCount).
Proof. apply sublist_nil_l. Qed.

Lemma recorded_nextWord (s s' : State) :
  recorded s → nextWord s s = Returns (s', None) → recorded s'.
Proof.
  unfold recorded. intros Hrec. rewrite nextWord_cases.
  case_bool_decide; [done |]. intros [= <-]. simpl.
  etrans; [exact Hrec |]. apply fmap_sublist, take_sublist_le.
  destruct (decide (feedback s = none)); lia.
Qed.

Lemma recorded_handleSubmit (amb : Ambient) (s s' : State) :
  recorded s → handleSubmit amb s s = Returns s' → recorded s'.
Proof.
  unfold recorded, handleSubmit. intros Hrec.
  destruct (currentWord s) as [w |] eqn:H; [| by intros [= <-]].
  case_bool_decide as Hfb; [by intros [= <-] |].
  destruct (decide (feedback s = none)) as [_ | Hne]; [| done].
  destruct (isCorrect (input s) w); intros [= <-]; simpl.
  - etrans; [exact Hrec |]. apply fmap_sublist, take_sublist_le. lia.
  - rewrite fmap_app, Nat.add_1_r, Nat.add_0_r in *.
    rewrite (take_S_r _ _ _ H), fmap_app. by apply sublist_app.
Qed.

Lemma recorded_step (e : Event) (s s' : State) :
  recorded s → dispatch e s = Returns (s', None) → recorded s'.
Proof.
  intros Hrec. destruct e as [value | amb | key |]; simpl.
  - by intros [= <-].
  - destruct (handleSubmit amb s s) as [s1 | err] eqn:Hcall; [| done].
    intros [= <-]. by eapply recorded_handleSubmit.
  - unfold handleKeyDown. destruct (_ && _); [| by intros [= <-]].
    by apply recorded_nextWord.
  - by apply recorded_nextWord.
Qed.

Lemma session_errors_sublist (events : list Event) (s : State)
    (summary : Result.t) :
  recorded s →
  result (session s events) = Some summary →
  ErrorRecord.wordId <$> Result.errors summary `sublist_of` Word.id <$> queue s.
Proof.
  revert s. induction events as [| e events IH]; intros s Hrec Hres; [done |].
  simpl in *.
  destruct (dispatch e s) as [[s' [sm |]] | err] eqn:Hcall; simpl in *; [| | done].
  - injection Hres as ->.
    destruct (dispatch_summary _ _ _ _ Hcall) as (_ & -> & _). simpl.
    etrans; [exact Hrec |]. apply fmap_sublist, sublist_take.
  - rewrite <- (dispatch_queue _ _ _ _ Hcall).
    apply IH; [| done]. by eapply recorded_step.
Qed.

(** *** Counting distinct ids *)

Lemma size_list_to_set_le (l : list string) :
  size (list_to_set l : gset string) ≤ length l.
Proof.
  induction l as [| x l IH]; [done |].
  rewrite list_to_set_cons, size_union_alt, size_singleton. simpl.
  pose proof (subseteq_size (list_to_set l ∖ {[x]}) (list_to_set l : gset string)
                (subseteq_difference_l _ _ _ (reflexivity _))).
  lia.
Qed.

(** The entries of a list are as many as its distinct values exactly when
    no value occurs twice. *)
Lemma size_list_to_set_NoDup (l : list string) :
  length l = size (list_to_set l : gset string) ↔ NoDup l.
Proof.
  split; [| intros Hnd; by rewrite size_list_to_set].
  induction l as [| x l IH]; [intros _; apply NoDup_nil_2 |].
  rewrite list_to_set_cons. simpl.
  intros Hsize. pose proof (size_list_to_set_le l) as Hle.
  destruct (decide (x ∈ l)) as [Hin | Hnin].
  - assert ({[x]} ∪ list_to_set l = (list_to_set l : gset string)) as Heq.
    { apply subseteq_union_1_L, singleton_subseteq_l.
      by apply elem_of_list_to_set. }
    rewrite Heq in Hsize. lia.
  - apply NoDup_cons_2; [done |]. apply IH.
    rewrite size_union, size_singleton in Hsize; [lia |].
    apply disjoint_singleton_l. by rewrite elem_of_list_to_set.
Qed.

End DictationFacts.

(** ** Both engines *)
Module Engines.

(** C3 (as the code has it).  The study summary's [reviewedCount] is the
    number of distinct word ids that ever occupied a queue entry.  The
    dictation summary's [totalCount] is the number of entries of its
    queue, which never changes; it is the number of distinct word ids
    exactly when no id occurs twice in that queue. *)
Theorem summary_counts :
  (∀ amb words targetCount events summary,
     StudyMode.result
       (StudyMode.session (StudyMode.init amb words targetCount) events)
       = Some summary →
     StudyMode.Result.reviewedCount summary =
       size (StudyMode.everQueued
               (StudyMode.visited
                  (StudyMode.session (StudyMode.init amb words targetCount) events)))) ∧
  (∀ shuffled targetCount events summary,
     DictationMode.result
       (DictationMode.session (DictationMode.init shuffled targetCount) events)
       = Some summary →
     DictationMode.Result.totalCount summary =
       length (DictationMode.queue (DictationMode.init shuffled targetCount)) ∧
     (DictationMode.Result.totalCount summary =
        size (DictationMode.everQueued
                (DictationMode.visited
                   (DictationMode.session
                      (DictationMode.init shuffled targetCount) events))) ↔
      NoDup (Word.id <$>
               DictationMode.queue (DictationMode.init shuffled targetCount)))).
Proof.
  split.
  - intros amb words targetCount events summary Hres.
    by destruct (StudyFacts.session_reviewedCount _ _ _ Hres).
  - intros shuffled targetCount events summary Hres.
    destruct (DictationFacts.session_totalCount _ _ _ Hres) as [-> ->].
    split; [done |].
    rewrite <- DictationFacts.size_list_to_set_NoDup. by rewrite length_fmap.
Qed.

Lemma summary_counts_witness :
  (StudyMode.Result.reviewedCount Scenario.spec_summary =
     size (StudyMode.everQueued (StudyMode.visited Scenario.spec_scenario))) ∧
  (DictationMode.Result.totalCount Scenario.cat_summary = length [Scenario.cat] ∧
   (DictationMode.Result.totalCount Scenario.cat_summary =
      size (DictationMode.everQueued (DictationMode.visited Scenario.cat_session)) ↔
    NoDup (Word.id <$> [Scenario.cat]))).
Proof.
  split.
  - apply (proj1 summary_counts Scenario.amb [Scenario.A; Scenario.B] 2%Z
             Scenario.spec_events Scenario.spec_summary).
    reflexivity.
  - apply (proj2 summary_counts [Scenario.cat] 1%Z
             Scenario.cat_events Scenario.cat_summary).
    reflexivity.
Defined.

(** C3 as stated fails for dictation: with [cat] twice in the queue the
    summary counts two words, while one id ever occupied an entry. *)
Lemma dictation_counts_entries :
  DictationMode.Result.totalCount <$> DictationMode.result Scenario.repeated_word_session
    = Some 2 ∧
  size (DictationMode.everQueued
          (DictationMode.visited Scenario.repeated_word_session)) = 1.
Proof. split; vm_compute; reflexivity. Qed.






End Engines.

(** ** StudyMode: the shape of a session *)
Module StudySessionFacts.
Import StudyMode StudySession.

Lemma word_imap_mk (u : nat → string) (l : list Word.t) :
  QueueItem.word <$> imap (λ k w, QueueItem.mk w (u k)) l = l.
Proof.
  revert u. induction l as [| w l IH]; intros u; [done |].
  cbn. f_equal. apply (IH (u ∘ S)).
Qed.

Lemma words_init (amb : Ambient) (words : list Word.t) (targetCount : Z) :
  QueueItem.word <$> queue (init amb words targetCount) = JS.slice0 targetCount words.
Proof. apply word_imap_mk. Qed.

Lemma wordIds_init (amb : Ambient) (words : list Word.t) (targetCount : Z) :
  wordIds (queue (init amb words targetCount)) = Word.id <$> JS.slice0 targetCount words.
Proof.
  unfold wordIds. rewrite (list_fmap_compose QueueItem.word Word.id).
  by rewrite words_init.
Qed.

Lemma length_init (amb : Ambient) (words : list Word.t) (targetCount : Z) :
  length (queue (init amb words targetCount)) = length (JS.slice0 targetCount words).
Proof. by rewrite <- (words_init amb), length_fmap. Qed.

Lemma Shape_init (amb : Ambient) (words : list Word.t) (targetCount : Z) :
  Shape (queue (init amb words targetCount)) (init amb words targetCount) [].
Proof.
  split.
  - intros Hne. change (currentIndex (init amb words targetCount)) with 0.
    destruct (queue (init amb words targetCount)); [done | simpl; lia].
  - done.
  - intros item Hin. by apply list_elem_of_fmap_2.
  - simpl. lia.
  - intros e He. by apply elem_of_nil in He.
  - apply NoDup_nil_2.
Qed.

Lemma Shape_frame (q0 : list QueueItem.t) (s s' : State)
    (log : list (string * ResponseType)) :
  queue s' = queue s → currentIndex s' = currentIndex s →
  sessionErrors s' = sessionErrors s → learnedIds s' = learnedIds s →
  Shape q0 s log → Shape q0 s' log.
Proof.
  intros Hq Hi He Hl [? ? ? ? ? ?]. split; by rewrite ?Hq, ?Hi, ?He, ?Hl.
Qed.

Lemma NoDup_delete (x : string) (l : JSSet.t) : NoDup l → NoDup (JSSet.delete x l).
Proof. apply NoDup_filter. Qed.

Lemma Shape_known (q0 : list QueueItem.t) (s : State)
    (log : list (string * ResponseType)) (item : QueueItem.t) (s' : State) :
  currentItem s = Some item →
  Shape q0 s log →
  queue s' = queue s →
  currentIndex s' < length (queue s) →
  sessionErrors s' = sessionErrors s →
  learnedIds s' = JSSet.add (Word.id (QueueItem.word item)) (learnedIds s) →
  Shape q0 s' (log ++ [(Word.id (QueueItem.word item), known)]).
Proof.
  intros H [Hc Hp Hw Hlen Hf Hl] Hq Hi He Hl'. split.
  - intros _. by rewrite Hq.
  - by rewrite Hq.
  - by rewrite Hq.
  - rewrite Hq, Hlen, !fmap_app, sum_list_with_app. simpl. lia.
  - rewrite He. intros e Hin. destruct (Hf e Hin) as (Hty & type & Hlog & Hne).
    split; [done |]. exists type. split; [| done]. apply elem_of_app. by left.
  - rewrite Hl'. by apply JSSetFacts.NoDup_add.
Qed.

Lemma Shape_handleResponse (amb : Ambient) (type : ResponseType)
    (q0 : list QueueItem.t) (s s' : State) (summary : option Result.t)
    (log : list (string * ResponseType)) :
  Shape q0 s log →
  handleResponse amb type s s = Returns (s', summary) →
  Shape q0 s' (log ++ answerTo s type).
Proof.
  intros HS Hcall. destruct (currentItem s) as [item |] eqn:H.
  - rewrite (StudyFacts.answerTo_Some s item type H).
    pose proof (StudyFacts.currentItem_lt _ _ H) as Hlt.
    destruct (decide (type = known)) as [-> | Hty].
    + rewrite (StudyFacts.handleResponse_known amb s item H) in Hcall.
      cbn zeta in Hcall.
      case_bool_decide; injection Hcall as <- <-;
        (eapply Shape_known; [done | done | done | simpl; lia | done | done]).
    + rewrite (StudyFacts.handleResponse_requeue amb type s item H Hty) in Hcall.
      cbn zeta in Hcall. injection Hcall as <- <-.
      destruct HS as [Hc Hp Hw Hlen Hf Hl]. split; simpl.
      * intros _. rewrite length_app, length_imap, length_replicate.
        destruct type; [done | |]; simpl; lia.
      * by apply prefix_app_r.
      * intros it [Hin | Hin]%elem_of_app; [by apply Hw |].
        assert (QueueItem.word it = QueueItem.word item) as ->.
        { destruct type; [done | |]; simpl in Hin;
            repeat (apply elem_of_cons in Hin as [-> | Hin]; [done |]);
            by apply elem_of_nil in Hin. }
        apply Hw. by eapply list_elem_of_lookup_2.
      * rewrite length_app, length_imap, length_replicate, Hlen.
        rewrite !fmap_app, sum_list_with_app. simpl. lia.
      * intros e Hin. unfold recordError in Hin.
        assert (e ∈ sessionErrors s ∨
                e = ErrorRecord.mk (Word.id (QueueItem.word item))
                      (Word.text (QueueItem.word item))
                      (Word.definition (QueueItem.word item))
                      (Word.phonetic (QueueItem.word item)) (isoDate amb)
                      ErrorRecord.learning) as [Hold | ->].
        { destruct (existsb _ (sessionErrors s)); [by left |].
          apply elem_of_app in Hin as [? | ->%list_elem_of_singleton]; [by left | by right]. }
        -- destruct (Hf e Hold) as (Hty' & ty & Hlog & Hne).
           split; [done |]. exists ty. split; [| done]. apply elem_of_app. by left.
        -- split; [done |]. exists type. split; [| done].
           apply elem_of_app. right. apply list_elem_of_here.
      * by apply NoDup_delete.
  - rewrite (StudyFacts.handleResponse_idle amb type s H) in Hcall.
    injection Hcall as <- <-. unfold answerTo. rewrite H. by rewrite app_nil_r.
Qed.

Lemma Shape_dispatch (e : Event) (q0 : list QueueItem.t) (s s' : State)
    (summary : option Result.t) (log : list (string * ResponseType)) :
  Shape q0 s log →
  dispatch e s = Returns (s', summary) →
  Shape q0 s' (log ++ answered e s).
Proof.
  intros HS Hcall. unfold answered.
  destruct (StudyFacts.dispatch_cases _ _ _ _ Hcall)
    as [(amb & type & -> & Hresp) | (-> & _ & Hq & Hi & He & Hl)].
  - by eapply Shape_handleResponse.
  - rewrite app_nil_r. by eapply Shape_frame.
Qed.

(** The states a session goes through all have the shape. *)
Lemma session_visited_shape (events : list Event) (q0 : list QueueItem.t)
    (s : State) (log : list (string * ResponseType)) (s' : State) :
  Shape q0 s log →
  s' ∈ visited (session s events) →
  ∃ log', Shape q0 s' log'.
Proof.
  revert s log. induction events as [| e events IH]; intros s log HS Hin; simpl in Hin.
  - apply list_elem_of_singleton in Hin as ->. by exists log.
  - destruct (dispatch e s) as [[s1 [sm |]] | err] eqn:Hcall; simpl in Hin.
    + apply elem_of_cons in Hin as [-> | Hin]; [by exists log |].
      apply list_elem_of_singleton in Hin as ->.
      eexists. by eapply Shape_dispatch.
    + apply elem_of_cons in Hin as [-> | Hin]; [by exists log |].
      eapply IH; [| done]. by eapply Shape_dispatch.
    + apply list_elem_of_singleton in Hin as ->. by exists log.
Qed.

(** A completed session: the state and log of its last call, which is a
    [known] response on the last entry of the queue. *)
Lemma session_completed_shape (events : list Event) (q0 : list QueueItem.t)
    (s : State) (log : list (string * ResponseType)) (summary : Result.t) :
  Inv s log → Shape q0 s log →
  result (session s events) = Some summary →
  ∃ s0 log0 item,
    Inv s0 log0 ∧ Shape q0 s0 log0 ∧
    currentItem s0 = Some item ∧
    length (queue s0) = currentIndex s0 + 1 ∧
    queue (final (session s events)) = queue s0 ∧
    summary = Result.mk (JSSet.size (JSSet.ofArray (wordIds (queue s0))))
                (sessionErrors s0)
                (JSSet.add (Word.id (QueueItem.word item)) (learnedIds s0)) ∧
    log ++ answers (session s events)
      = log0 ++ [(Word.id (QueueItem.word item), known)].
Proof.
  revert s log. induction events as [| e events IH]; intros s log HI HS Hres; [done |].
  simpl in *.
  destruct (dispatch e s) as [[s' [sm |]] | err] eqn:Hcall; simpl in *; [| | done].
  - injection Hres as ->. unfold answered.
    destruct (StudyFacts.dispatch_cases _ _ _ _ Hcall)
      as [(amb & type & -> & Hresp) | (_ & [=] & _)].
    destruct (StudyFacts.handleResponse_summary_inv _ _ _ _ _ Hresp)
      as (item & H & -> & Hlen & -> & ->).
    exists s, log, item. rewrite (StudyFacts.answerTo_Some s item known H).
    by split_and!.
  - destruct (IH s' (log ++ answered e s) (StudyFacts.Inv_step _ _ _ _ HI Hcall)
                (Shape_dispatch _ _ _ _ _ _ HS Hcall) Hres)
      as (s0 & log0 & item & HI0 & HS0 & H & Hlen & Hq & Hsum & Hlog).
    exists s0, log0, item. split_and!; try done. by rewrite app_assoc.
Qed.

Lemma slice0_subseteq {A : Type} (n : Z) (l : list A) : JS.slice0 n l ⊆ l.
Proof. unfold JS.slice0. destruct (n <? 0)%Z; apply subseteq_take. Qed.

Lemma init_nonempty (amb : Ambient) (words : list Word.t) (targetCount : Z) :
  JS.slice0 targetCount words ≠ [] → queue (init amb words targetCount) ≠ [].
Proof.
  intros Hne Hq. apply Hne. apply length_zero_iff_nil.
  by rewrite <- (length_init amb), Hq.
Qed.

(** The queue holds the same word ids from the first state to the last. *)
Lemma Shape_wordIds (q0 : list QueueItem.t) (s : State)
    (log : list (string * ResponseType)) :
  Shape q0 s log →
  list_to_set (wordIds (queue s)) =@{gset string} list_to_set (wordIds q0).
Proof.
  intros [_ Hp Hw _ _ _]. apply set_eq. intros w.
  rewrite !elem_of_list_to_set. unfold wordIds. split.
  - intros (item & -> & Hin)%list_elem_of_fmap.
    apply Hw, list_elem_of_fmap in Hin as (item0 & Heq & Hin0).
    apply list_elem_of_fmap. exists item0. by rewrite Heq.
  - intros (item & -> & Hin)%list_elem_of_fmap.
    apply list_elem_of_fmap. exists item. split; [done |].
    by eapply elem_of_prefix.
Qed.

Lemma lastResponse_is_Some_elem (w : string) (log : list (string * ResponseType)) :
  is_Some (lastResponse w log) → w ∈ log.*1.
Proof.
  induction log as [| [w' r] log IH]; simpl; [by intros [? [=]] |].
  destruct (lastResponse w log).
  - intros _. apply list_elem_of_further. by apply IH.
  - case_bool_decide as Hw; [| by intros [? [=]]]. subst. intros _.
    apply list_elem_of_here.
Qed.

(** X1.  From a non-empty initial queue there is an entry under the cursor
    in every state the session goes through: a response never finds the
    queue exhausted. *)
Theorem card_always_under_cursor (amb : Ambient) (words : list Word.t)
    (targetCount : Z) (events : list Event) (s' : State) :
  JS.slice0 targetCount words ≠ [] →
  s' ∈ visited (session (init amb words targetCount) events) →
  is_Some (currentItem s').
Proof.
  intros Hne Hin.
  destruct (session_visited_shape events _ _ [] s' (Shape_init amb words targetCount) Hin)
    as [log' [Hc _ _ _ _ _]].
  apply lookup_lt_is_Some_2, Hc. by apply init_nonempty.
Qed.

Lemma card_always_under_cursor_witness : is_Some (currentItem Scenario.on_B).
Proof.
  apply (card_always_under_cursor Scenario.amb [Scenario.A; Scenario.B] 2
           [Respond (Scenario.at_ 1) known] Scenario.on_B).
  - discriminate.
  - apply list_elem_of_further, list_elem_of_here.
Defined.

Lemma session_idle (events : list Event) (s : State) :
  currentItem s = None →
  result (session s events) = None ∧ answers (session s events) = [].
Proof.
  revert s. induction events as [| e events IH]; intros s H; [done |].
  simpl. destruct (dispatch e s) as [[s' o] | err] eqn:Hcall; [| done].
  assert (o = None ∧ currentItem s' = None ∧ answered e s = []) as (-> & H' & ->).
  { unfold answered.
    destruct (StudyFacts.dispatch_cases _ _ _ _ Hcall)
      as [(amb & type & -> & Hresp) | (-> & -> & Hq & Hi & _)].
    - rewrite (StudyFacts.handleResponse_idle amb type s H) in Hresp.
      injection Hresp as <- <-. unfold answerTo. by rewrite H.
    - unfold currentItem in *. by rewrite Hq, Hi. }
  simpl. by apply IH.
Qed.

(** X2.  When the initial queue is empty (no candidate, or a [targetCount]
    that slices none) the session never completes, whatever the user
    does: no summary is emitted and nothing counts as an answer. *)
Theorem empty_queue_never_completes (amb : Ambient) (words : list Word.t)
    (targetCount : Z) (events : list Event) :
  JS.slice0 targetCount words = [] →
  result (session (init amb words targetCount) events) = None ∧
  answers (session (init amb words targetCount) events) = [].
Proof.
  intros Hempty. apply session_idle. apply lookup_ge_None_2.
  rewrite length_init, Hempty. simpl. lia.
Qed.

Lemma empty_queue_never_completes_witness :
  result (session (init Scenario.amb [Scenario.A; Scenario.B] 0) Scenario.spec_events)
    = None ∧
  answers (session (init Scenario.amb [Scenario.A; Scenario.B] 0) Scenario.spec_events)
    = [].
Proof.
  apply (empty_queue_never_completes Scenario.amb [Scenario.A; Scenario.B] 0
           Scenario.spec_events).
  reflexivity.
Defined.

(** X3.  The [reviewedCount] of a completed session is fixed when the
    session starts: it is the number of distinct ids among the words the
    initial queue was cut from the candidates, whatever the responses; it
    is at least 1 and at most the number of those words. *)
Theorem reviewedCount_from_candidates (amb : Ambient) (words : list Word.t)
    (targetCount : Z) (events : list Event) (summary : Result.t) :
  result (session (init amb words targetCount) events) = Some summary →
  Result.reviewedCount summary
    = size (list_to_set (Word.id <$> JS.slice0 targetCount words) : gset string) ∧
  1 ≤ Result.reviewedCount summary ∧
  Result.reviewedCount summary ≤ length (JS.slice0 targetCount words).
Proof.
  intros Hres.
  destruct (session_completed_shape events _ _ [] summary
              (StudyFacts.Inv_init amb words targetCount)
              (Shape_init amb words targetCount) Hres)
    as (s0 & log0 & item & _ & HS & H & _ & _ & -> & _).
  simpl. rewrite JSSetFacts.size_ofArray, (Shape_wordIds _ _ _ HS), wordIds_init.
  split_and!; [done | |].
  - destruct HS as [_ _ Hw _ _ _].
    pose proof (Hw item (list_elem_of_lookup_2 _ _ _ H)) as Hin.
    rewrite words_init in Hin.
    apply (list_elem_of_fmap_2 Word.id) in Hin.
    apply (elem_of_list_to_set (C:=gset string)) in Hin.
    destruct (decide (size (list_to_set (Word.id <$> JS.slice0 targetCount words)
                          : gset string) = 0)) as [H0 | ?]; [| lia].
    apply size_empty_inv in H0. apply H0 in Hin.
    by apply not_elem_of_empty in Hin.
  - etrans; [apply DictationFacts.size_list_to_set_le |]. by rewrite length_fmap.
Qed.

Lemma reviewedCount_from_candidates_witness :
  Result.reviewedCount Scenario.twice_B_summary
    = size (list_to_set (Word.id <$> JS.slice0 2 [Scenario.B; Scenario.B]) : gset string) ∧
  1 ≤ Result.reviewedCount Scenario.twice_B_summary ∧
  Result.reviewedCount Scenario.twice_B_summary
    ≤ length (JS.slice0 2 [Scenario.B; Scenario.B]).
Proof.
  apply (reviewedCount_from_candidates Scenario.amb [Scenario.B; Scenario.B] 2
           Scenario.twice_B_events Scenario.twice_B_summary).
  reflexivity.
Defined.

(** X4.  When every response is handled before the next one is given,
    as [session] runs them, a completed session asked for as many
    responses as the final queue has entries, and that is the size of the
    initial queue plus one for every [vague] and three for every
    [unknown] response given.  (A response that overtakes a pending
    [vague] or [unknown] is outside [session]; see [StaleFacts].) *)
Theorem exposures_count (amb : Ambient) (words : list Word.t)
    (targetCount : Z) (events : list Event) (summary : Result.t) :
  result (session (init amb words targetCount) events) = Some summary →
  length (answers (session (init amb words targetCount) events))
    = length (queue (final (session (init amb words targetCount) events))) ∧
  length (queue (final (session (init amb words targetCount) events)))
    = length (JS.slice0 targetCount words) +
      sum_list (requeueCount <$>
                  (answers (session (init amb words targetCount) events)).*2).
Proof.
  intros Hres.
  destruct (session_completed_shape events _ _ [] summary
              (StudyFacts.Inv_init amb words targetCount)
              (Shape_init amb words targetCount) Hres)
    as (s0 & log0 & item & [_ Hc _ _] & [_ _ _ Hlen _ _] & H & Hlast & -> & _ & Hlog).
  simpl in Hlog. rewrite Hlog. clear Hlog.
  pose proof (StudyFacts.currentItem_lt _ _ H) as Hlt.
  assert (length log0 = currentIndex s0) as Hlog0.
  { rewrite <- (length_fmap fst), Hc. unfold wordIds.
    rewrite length_fmap, length_take. lia. }
  rewrite length_init in Hlen.
  rewrite length_app, !fmap_app, sum_list_with_app. simpl.
  split; lia.
Qed.

Lemma exposures_count_witness :
  length (answers Scenario.spec_scenario) = length (queue (final Scenario.spec_scenario)) ∧
  length (queue (final Scenario.spec_scenario))
    = length (JS.slice0 2 [Scenario.A; Scenario.B]) +
      sum_list (requeueCount <$> (answers Scenario.spec_scenario).*2).
Proof.
  apply (exposures_count Scenario.amb [Scenario.A; Scenario.B] 2
           Scenario.spec_events Scenario.spec_summary).
  reflexivity.
Defined.

(** X5.  The error list of a completed session names exactly the words
    that were answered [vague] or [unknown] at least once, and all its
    records are of the learning kind. *)
Theorem errors_are_failed_words (amb : Ambient) (words : list Word.t)
    (targetCount : Z) (events : list Event) (summary : Result.t) :
  result (session (init amb words targetCount) events) = Some summary →
  (∀ w, w ∈ ErrorRecord.wordId <$> Result.errors summary ↔
        ∃ type, (w, type) ∈ answers (session (init amb words targetCount) events) ∧
                type ≠ known) ∧
  (∀ e, e ∈ Result.errors summary → ErrorRecord.type e = ErrorRecord.learning).
Proof.
  intros Hres.
  destruct (session_completed_shape events _ _ [] summary
              (StudyFacts.Inv_init amb words targetCount)
              (Shape_init amb words targetCount) Hres)
    as (s0 & log0 & item & [_ _ He _] & [_ _ _ _ Hf _] & _ & _ & _ & -> & Hlog).
  simpl in Hlog. rewrite Hlog. clear Hlog. simpl. split.
  - intros w. split.
    + intros (e & -> & Hin)%list_elem_of_fmap.
      destruct (Hf e Hin) as (_ & type & Hlogin & Hne).
      exists type. split; [| done]. apply elem_of_app. by left.
    + intros (type & [Hin | Hin]%elem_of_app & Hne); [by eapply He |].
      apply list_elem_of_singleton in Hin. by inversion Hin; subst.
  - intros e Hin. by destruct (Hf e Hin).
Qed.

Lemma errors_are_failed_words_witness :
  (∀ w, w ∈ ErrorRecord.wordId <$> Result.errors Scenario.spec_summary ↔
        ∃ type, (w, type) ∈ answers Scenario.spec_scenario ∧ type ≠ known) ∧
  (∀ e, e ∈ Result.errors Scenario.spec_summary →
        ErrorRecord.type e = ErrorRecord.learning).
Proof.
  apply (errors_are_failed_words Scenario.amb [Scenario.A; Scenario.B] 2
           Scenario.spec_events Scenario.spec_summary).
  reflexivity.
Defined.

(** X6.  In the summary of a completed session neither the errors nor the
    learned ids outnumber [reviewedCount]; the learned ids are pairwise
    distinct and are ids of candidate words. *)
Theorem summary_within_reviewedCount (amb : Ambient) (words : list Word.t)
    (targetCount : Z) (events : list Event) (summary : Result.t) :
  result (session (init amb words targetCount) events) = Some summary →
  length (Result.errors summary) ≤ Result.reviewedCount summary ∧
  length (Result.learnedIds summary) ≤ Result.reviewedCount summary ∧
  NoDup (Result.learnedIds summary) ∧
  ∀ w, w ∈ Result.learnedIds summary → w ∈ Word.id <$> words.
Proof.
  intros Hres.
  destruct (session_completed_shape events _ _ [] summary
              (StudyFacts.Inv_init amb words targetCount)
              (Shape_init amb words targetCount) Hres)
    as (s0 & log0 & item & [Hl Hc _ Hn] & HS & H & _ & _ & -> & _).
  pose proof (Shape_wordIds _ _ _ HS) as Hids.
  destruct HS as [_ _ _ _ Hf Hnd]. simpl.
  assert (∀ w, w ∈ log0.*1 → w ∈ wordIds (queue s0)) as Hlogged.
  { intros w. rewrite Hc. unfold wordIds. rewrite fmap_take. apply subseteq_take. }
  assert (∀ w, w ∈ JSSet.add (Word.id (QueueItem.word item)) (learnedIds s0) →
               w ∈ wordIds (queue s0)) as Hlearned.
  { intros w [-> | Hin]%JSSetFacts.elem_of_add.
    - apply list_elem_of_fmap. exists item. split; [done |].
      by eapply list_elem_of_lookup_2.
    - apply Hlogged, lastResponse_is_Some_elem. apply Hl in Hin. by rewrite Hin. }
  rewrite JSSetFacts.size_ofArray. split_and!.
  - rewrite <- (length_fmap ErrorRecord.wordId), <- (size_list_to_set (C:=gset string)) by done.
    apply subseteq_size. intros w (e & -> & Hin)%elem_of_list_to_set%list_elem_of_fmap.
    apply elem_of_list_to_set, Hlogged.
    destruct (Hf e Hin) as (_ & type & Hlogin & _).
    apply list_elem_of_fmap. by exists (ErrorRecord.wordId e, type).
  - rewrite <- (size_list_to_set (C:=gset string)) by by apply JSSetFacts.NoDup_add.
    apply subseteq_size. intros w Hin%elem_of_list_to_set.
    by apply elem_of_list_to_set, Hlearned.
  - by apply JSSetFacts.NoDup_add.
  - intros w Hin%Hlearned.
    apply (elem_of_list_to_set (C:=gset string)) in Hin.
    rewrite Hids, wordIds_init in Hin. apply elem_of_list_to_set in Hin.
    apply list_elem_of_fmap in Hin as (x & -> & Hin).
    apply list_elem_of_fmap_2. by apply (slice0_subseteq targetCount).
Qed.

Lemma summary_within_reviewedCount_witness :
  length (Result.errors Scenario.spec_summary)
    ≤ Result.reviewedCount Scenario.spec_summary ∧
  length (Result.learnedIds Scenario.spec_summary)
    ≤ Result.reviewedCount Scenario.spec_summary ∧
  NoDup (Result.learnedIds Scenario.spec_summary) ∧
  ∀ w, w ∈ Result.learnedIds Scenario.spec_summary →
       w ∈ Word.id <$> [Scenario.A; Scenario.B].
Proof.
  apply (summary_within_reviewedCount Scenario.amb [Scenario.A; Scenario.B] 2
           Scenario.spec_events Scenario.spec_summary).
  reflexivity.
Defined.

Lemma dispatch_enter (e : Event) (s : State) :
  isEnter e = true →
  dispatch e s =
    if isRevealed s
    then match e with
         | KeyDown amb _ => handleResponse amb known s s
         | _ => Returns (s, None)
         end
    else Returns (setIsRevealed true s, None).
Proof.
  destruct e as [| amb type | amb key]; simpl; [done | done |].
  intros Hkey. unfold handleKeyDown. rewrite Hkey. by destruct (isRevealed s).
Qed.

(** Enter pressed twice on an entry: reveal, then [known]. *)
Lemma session_two_enters (e1 e2 : Event) (events : list Event) (s : State)
    (item : QueueItem.t) :
  isRevealed s = false →
  isEnter e1 = true → isEnter e2 = true →
  currentItem s = Some item →
  result (session s (e1 :: e2 :: events)) =
    if bool_decide (length (queue s) ≤ currentIndex s + 1)
    then Some (Result.mk (JSSet.size (JSSet.ofArray (wordIds (queue s))))
                 (sessionErrors s)
                 (JSSet.add (Word.id (QueueItem.word item)) (learnedIds s)))
    else result
           (session
              (mkState (queue s) (currentIndex s + 1) false (sessionErrors s)
                 (JSSet.add (Word.id (QueueItem.word item)) (learnedIds s)))
              events).
Proof.
  intros Hrev He1 He2 H.
  cbn [session]. rewrite (dispatch_enter e1 s He1), Hrev.
  cbn [session]. rewrite (dispatch_enter e2 _ He2).
  destruct e2 as [| amb2 type2 | amb2 key2]; [done | done |].
  cbn [isRevealed setIsRevealed].
  rewrite (StudyFacts.handleResponse_known amb2 (setIsRevealed true s) item H).
  cbn zeta. cbn [queue currentIndex setIsRevealed].
  by case_bool_decide.
Qed.

Lemma enter_session (k : nat) (s : State) (events : list Event) :
  isRevealed s = false →
  currentIndex s + S k = length (queue s) →
  Forall (λ e, isEnter e = true) events →
  2 * S k ≤ length events →
  result (session s events)
    = Some (Result.mk (JSSet.size (JSSet.ofArray (wordIds (queue s))))
              (sessionErrors s)
              (foldl (λ L w, JSSet.add w L) (learnedIds s)
                 (drop (currentIndex s) (wordIds (queue s))))).
Proof.
  revert s events. induction k as [| k IH]; intros s events Hrev Hidx Hall Hlen.
  all: destruct events as [| e1 [| e2 events]]; [simpl in Hlen; lia | simpl in Hlen; lia |].
  all: apply Forall_cons in Hall as [He1 Hall]; apply Forall_cons in Hall as [He2 Hall].
  all: destruct (lookup_lt_is_Some_2 (queue s) (currentIndex s) ltac:(lia)) as [item H].
  all: assert (wordIds (queue s) !! currentIndex s = Some (Word.id (QueueItem.word item)))
         as Hid by (unfold wordIds; by rewrite list_lookup_fmap, H).
  all: rewrite (drop_S _ _ _ Hid), (session_two_enters e1 e2 events s item Hrev He1 He2 H).
  - rewrite bool_decide_eq_true_2 by lia. simpl.
    rewrite drop_ge; [done |]. unfold wordIds. rewrite length_fmap. lia.
  - rewrite bool_decide_eq_false_2 by lia.
    rewrite (IH _ events); [| done | simpl; lia | done | simpl in *; lia].
    simpl. by rewrite Nat.add_1_r.
Qed.

(** X7.  With the keyboard alone, two presses of Enter per entry complete
    the session: every word is learned, in queue order, no error is
    recorded and the queue never grows. *)
Theorem enter_only_session (amb : Ambient) (words : list Word.t)
    (targetCount : Z) (events : list Event) :
  JS.slice0 targetCount words ≠ [] →
  Forall (λ e, isEnter e = true) events →
  2 * length (JS.slice0 targetCount words) ≤ length events →
  result (session (init amb words targetCount) events)
    = Some (Result.mk
              (size (list_to_set (Word.id <$> JS.slice0 targetCount words) : gset string))
              []
              (JSSet.ofArray (Word.id <$> JS.slice0 targetCount words))).
Proof.
  intros Hne Hall Hlen.
  pose proof (length_init amb words targetCount) as Hq.
  destruct (length (JS.slice0 targetCount words)) as [| k] eqn:Hk.
  { by apply length_zero_iff_nil in Hk. }
  rewrite (enter_session k _ events); [| done | by rewrite Hq | done | done].
  rewrite JSSetFacts.size_ofArray, wordIds_init. done.
Qed.

Lemma enter_only_session_witness :
  result (session (init Scenario.amb [Scenario.A; Scenario.B] 2) Scenario.enter_events)
    = Some (Result.mk
              (size (list_to_set (Word.id <$> JS.slice0 2 [Scenario.A; Scenario.B])
                     : gset string))
              []
              (JSSet.ofArray (Word.id <$> JS.slice0 2 [Scenario.A; Scenario.B]))).
Proof.
  apply (enter_only_session Scenario.amb [Scenario.A; Scenario.B] 2 Scenario.enter_events).
  - discriminate.
  - repeat constructor.
  - simpl. lia.
Defined.

End StudySessionFacts.

(** ** DictationMode: the shape of a session *)
Module DictationSessionFacts.
Import DictationMode DictationView.

Lemma gradedIds_learned (errors : list ErrorRecord.t) (learned : list string)
    (w : string) :
  gradedIds errors (learned ++ [w]) = gradedIds errors learned ++ [w].
Proof. unfold gradedIds. by rewrite (assoc_L (++)). Qed.

Lemma gradedIds_failed (errors : list ErrorRecord.t) (learned : list string)
    (e : ErrorRecord.t) :
  gradedIds (errors ++ [e]) learned ≡ₚ gradedIds errors learned ++ [ErrorRecord.wordId e].
Proof.
  unfold gradedIds. rewrite fmap_app, <- !(assoc_L (++)). simpl.
  f_equiv. apply (Permutation_app_comm [_] learned).
Qed.

Lemma gradedEntries_submit (s : State) (w : Word.t) (fb : Feedback) :
  currentWord s = Some w → feedback s = none → fb ≠ none →
  take (currentIndex s + (if decide (fb = none) then 0 else 1)) (queue s)
    = gradedEntries s ++ [w].
Proof.
  intros H Hfb Hne. unfold gradedEntries. rewrite Hfb.
  destruct (decide (fb = none)); [done |].
  destruct (decide (none = none)); [| done].
  by rewrite Nat.add_0_r, Nat.add_1_r, (take_S_r _ _ _ H).
Qed.

(** What a submit does to the graded entries and to the two lists. *)
Lemma handleSubmit_graded_ids (amb : Ambient) (s s' : State) :
  handleSubmit amb s s = Returns s' →
  s' = s ∨
  ∃ w, currentWord s = Some w ∧ feedback s = none ∧ feedback s' ≠ none ∧
       currentWord s' = Some w ∧
       gradedEntries s' = gradedEntries s ++ [w] ∧
       gradedIds (sessionErrors s') (learnedIds s')
         ≡ₚ gradedIds (sessionErrors s) (learnedIds s) ++ [Word.id w].
Proof.
  unfold handleSubmit.
  destruct (currentWord s) as [w |] eqn:H; [| intros [= <-]; by left].
  case_bool_decide as Hfb; [intros [= <-]; by left |].
  assert (feedback s = none) as Hnone by (by destruct (feedback s)).
  destruct (isCorrect (input s) w); intros [= <-]; right; exists w.
  - split_and!; [done | done | done | done | |].
    + by apply (gradedEntries_submit s w correct).
    + simpl. by rewrite gradedIds_learned.
  - split_and!; [done | done | done | done | |].
    + by apply (gradedEntries_submit s w incorrect).
    + simpl. apply (gradedIds_failed _ _ (errorRecord amb w)).
Qed.

Lemma gradedOnce_init (shuffled : list Word.t) (targetCount : Z) :
  gradedOnce (init shuffled targetCount).
Proof. apply submseteq_nil_l. Qed.

Lemma gradedOnce_step (e : Event) (s s' : State) :
  gradedOnce s → dispatch e s = Returns (s', None) → gradedOnce s'.
Proof.
  unfold gradedOnce. intros HG.
  assert (∀ s1, nextWord s s = Returns (s1, None) →
                gradedIds (sessionErrors s1) (learnedIds s1)
                  ⊆+ Word.id <$> gradedEntries s1) as Hnext.
  { intros s1. rewrite DictationFacts.nextWord_cases.
    case_bool_decide; [done |]. intros [= <-]. simpl.
    etrans; [exact HG |]. apply sublist_submseteq, fmap_sublist.
    unfold gradedEntries. simpl. apply DictationFacts.take_sublist_le.
    destruct (decide (feedback s = none)); lia. }
  destruct e as [value | amb | key |]; simpl.
  - by intros [= <-].
  - destruct (handleSubmit amb s s) as [s1 | err] eqn:Hcall; [| done].
    intros [= <-].
    destruct (handleSubmit_graded_ids _ _ _ Hcall)
      as [-> | (w & _ & _ & _ & _ & -> & ->)]; [done |].
    rewrite fmap_app. by apply submseteq_skips_r.
  - unfold handleKeyDown. destruct (_ && _); [apply Hnext | by intros [= <-]].
  - apply Hnext.
Qed.

Lemma session_gradedOnce (events : list Event) (s : State) (summary : Result.t) :
  gradedOnce s →
  result (session s events) = Some summary →
  gradedIds (Result.errors summary) (Result.learnedIds summary)
    ⊆+ Word.id <$> queue s.
Proof.
  revert s. induction events as [| e events IH]; intros s HG Hres; [done |].
  simpl in *.
  destruct (dispatch e s) as [[s' [sm |]] | err] eqn:Hcall; simpl in *; [| | done].
  - injection Hres as ->.
    destruct (DictationFacts.dispatch_summary _ _ _ _ Hcall) as (_ & -> & _). simpl.
    etrans; [exact HG |]. apply sublist_submseteq, fmap_sublist, sublist_take.
  - rewrite <- (DictationFacts.dispatch_queue _ _ _ _ Hcall).
    apply IH; [| done]. by eapply gradedOnce_step.
Qed.

(** X8.  Whatever calls are made, a dictation entry is graded at most
    once: the ids of the error records together with the learned ids are
    ids of distinct queue entries, so errors and learned words together
    never outnumber [totalCount]. *)
Theorem dictation_graded_at_most_once (shuffled : list Word.t) (targetCount : Z)
    (events : list Event) (summary : Result.t) :
  result (session (init shuffled targetCount) events) = Some summary →
  gradedIds (Result.errors summary) (Result.learnedIds summary)
    ⊆+ Word.id <$> queue (init shuffled targetCount) ∧
  length (Result.errors summary) + length (Result.learnedIds summary)
    ≤ Result.totalCount summary.
Proof.
  intros Hres.
  pose proof (session_gradedOnce events _ summary
                (gradedOnce_init shuffled targetCount) Hres) as Hsub.
  split; [done |].
  destruct (DictationFacts.session_totalCount _ _ _ Hres) as [-> _].
  apply submseteq_length in Hsub. unfold gradedIds in Hsub.
  by rewrite length_app, !length_fmap in Hsub.
Qed.

Lemma dictation_graded_at_most_once_witness :
  gradedIds (Result.errors Scenario.cat_summary) (Result.learnedIds Scenario.cat_summary)
    ⊆+ Word.id <$> queue (init [Scenario.cat] 1) ∧
  length (Result.errors Scenario.cat_summary)
    + length (Result.learnedIds Scenario.cat_summary)
    ≤ Result.totalCount Scenario.cat_summary.
Proof.
  apply (dictation_graded_at_most_once [Scenario.cat] 1 Scenario.cat_events
           Scenario.cat_summary).
  reflexivity.
Defined.

Lemma gradedAll_init (shuffled : list Word.t) (targetCount : Z) :
  gradedAll (init shuffled targetCount).
Proof. split; [done | by intros []]. Qed.

(** On a graded entry [nextWord] either moves to the next entry, which is
    pending, or emits the summary, and then every entry has been graded. *)
Lemma gradedAll_nextWord (s s' : State) (summary : option Result.t) :
  gradedAll s → feedback s ≠ none →
  nextWord s s = Returns (s', summary) →
  match summary with
  | None => gradedAll s'
  | Some _ => gradedEntries s = queue s ∧ queue s ≠ []
  end.
Proof.
  intros [Hperm Hcur] Hfb. destruct (Hcur Hfb) as [w H].
  pose proof (lookup_lt_Some _ _ _ H) as Hlt.
  rewrite DictationFacts.nextWord_cases.
  assert (gradedEntries s = take (currentIndex s + 1) (queue s)) as Hg.
  { unfold gradedEntries. by destruct (decide (feedback s = none)). }
  case_bool_decide; intros [= <- <-].
  - split; [rewrite Hg; apply take_ge; lia |]. intros Hq. rewrite Hq in Hlt.
    simpl in Hlt. lia.
  - split; [| by intros []]. unfold gradedEntries in *. simpl.
    by rewrite Nat.add_0_r, <- Hg.
Qed.

(** A call the screen offers reaches [nextWord] on graded entries only. *)
Lemma gradedAll_dispatch (e : Event) (s s' : State) (summary : option Result.t) :
  gradedAll s → offered e s = true →
  dispatch e s = Returns (s', summary) →
  match summary with
  | None => gradedAll s'
  | Some _ => gradedEntries s = queue s ∧ queue s ≠ []
  end.
Proof.
  intros HK Hoff. destruct e as [value | amb | key |]; simpl.
  - by intros [= <- <-].
  - destruct (handleSubmit amb s s) as [s1 | err] eqn:Hcall; [| done].
    intros [= <- <-].
    destruct (handleSubmit_graded_ids _ _ _ Hcall)
      as [-> | (w & _ & _ & _ & Hcur & Hg & Hperm)]; [done |].
    destruct HK as [HK _]. split.
    + by rewrite Hperm, Hg, fmap_app, HK.
    + intros _. by rewrite Hcur.
  - unfold handleKeyDown. case_bool_decide; simpl; [| by intros [= <- <-]].
    case_bool_decide as Hfb; simpl; [| by intros [= <- <-]].
    by apply gradedAll_nextWord.
  - simpl in Hoff. apply andb_prop in Hoff as [_ Hbtn].
    unfold nextButtonRendered in Hbtn. apply bool_decide_eq_true in Hbtn.
    apply gradedAll_nextWord; [done |]. by rewrite Hbtn.
Qed.

Lemma session_gradedAll (events : list Event) (s : State) (summary : Result.t) :
  gradedAll s →
  interactive s events = true →
  result (session s events) = Some summary →
  gradedIds (Result.errors summary) (Result.learnedIds summary)
    ≡ₚ Word.id <$> queue s ∧
  queue s ≠ [].
Proof.
  revert s. induction events as [| e events IH]; intros s HK Hint Hres; [done |].
  simpl in *. apply andb_prop in Hint as [Hoff Hint].
  destruct (dispatch e s) as [[s' [sm |]] | err] eqn:Hcall; simpl in *; [| | done].
  - injection Hres as ->.
    destruct (gradedAll_dispatch _ _ _ _ HK Hoff Hcall) as [Hg Hne].
    destruct (DictationFacts.dispatch_summary _ _ _ _ Hcall) as (_ & -> & _). simpl.
    split; [| done]. destruct HK as [HK _]. by rewrite HK, Hg.
  - rewrite <- (DictationFacts.dispatch_queue _ _ _ _ Hcall).
    apply IH; [| done | done]. by apply (gradedAll_dispatch _ _ _ _ HK Hoff Hcall).
Qed.

(** X9.  In a session made through the controls on screen every entry is
    graded exactly once before the summary: the ids of the error records
    together with the learned ids are the ids of the queue entries, errors
    and learned words add up to [totalCount], and [totalCount] is at least
    1 (on an empty queue the screen offers no way to finish). *)
Theorem dictation_graded_exactly_once (shuffled : list Word.t) (targetCount : Z)
    (events : list Event) (summary : Result.t) :
  interactive (init shuffled targetCount) events = true →
  result (session (init shuffled targetCount) events) = Some summary →
  gradedIds (Result.errors summary) (Result.learnedIds summary)
    ≡ₚ Word.id <$> queue (init shuffled targetCount) ∧
  length (Result.errors summary) + length (Result.learnedIds summary)
    = Result.totalCount summary ∧
  1 ≤ Result.totalCount summary.
Proof.
  intros Hint Hres.
  destruct (session_gradedAll events _ summary
              (gradedAll_init shuffled targetCount) Hint Hres) as [Hperm Hne].
  split; [done |].
  destruct (DictationFacts.session_totalCount _ _ _ Hres) as [-> _].
  apply Permutation_length in Hperm. unfold gradedIds in Hperm.
  rewrite length_app, !length_fmap in Hperm. split; [done |].
  destruct (queue (init shuffled targetCount)); [done | simpl; lia].
Qed.

Lemma dictation_graded_exactly_once_witness :
  gradedIds (Result.errors Scenario.cat_summary) (Result.learnedIds Scenario.cat_summary)
    ≡ₚ Word.id <$> queue (init [Scenario.cat] 1) ∧
  length (Result.errors Scenario.cat_summary)
    + length (Result.learnedIds Scenario.cat_summary)
    = Result.totalCount Scenario.cat_summary ∧
  1 ≤ Result.totalCount Scenario.cat_summary.
Proof.
  apply (dictation_graded_exactly_once [Scenario.cat] 1 Scenario.cat_events
           Scenario.cat_summary); reflexivity.
Defined.

(** X10.  The dictation queue is cut from the candidates: whatever order
    the shuffle leaves, every queued word is a candidate, no candidate is
    queued more often than it occurs, distinct ids stay distinct, and for
    a [targetCount] that is not negative the queue has
    [min(targetCount, words.length)] entries. *)
Theorem dictation_queue_from_candidates (words shuffled : list Word.t)
    (targetCount : Z) :
  shuffled ≡ₚ words →
  queue (init shuffled targetCount) ⊆+ words ∧
  (∀ w, w ∈ queue (init shuffled targetCount) → w ∈ words) ∧
  (NoDup (Word.id <$> words) → NoDup (Word.id <$> queue (init shuffled targetCount))) ∧
  ((0 ≤ targetCount)%Z →
   length (queue (init shuffled targetCount)) = Z.to_nat targetCount `min` length words).
Proof.
  intros Hperm. simpl.
  assert (JS.slice0 targetCount shuffled `sublist_of` shuffled) as Hsub.
  { unfold JS.slice0. destruct (targetCount <? 0)%Z; apply sublist_take. }
  assert (JS.slice0 targetCount shuffled ⊆+ words) as Hms.
  { rewrite <- Hperm. by apply sublist_submseteq. }
  split_and!.
  - done.
  - intros w Hin. by eapply elem_of_submseteq.
  - intros Hnd. apply (sublist_NoDup _ (Word.id <$> shuffled)).
    + by rewrite Hperm.
    + by apply fmap_sublist.
  - intros Hpos. unfold JS.slice0.
    destruct (targetCount <? 0)%Z eqn:Hneg; [lia |].
    by rewrite length_take, (Permutation_length Hperm).
Qed.

Lemma dictation_queue_from_candidates_witness :
  queue (init [Scenario.dog; Scenario.cat] 1) ⊆+ [Scenario.cat; Scenario.dog] ∧
  (∀ w, w ∈ queue (init [Scenario.dog; Scenario.cat] 1) →
        w ∈ [Scenario.cat; Scenario.dog]) ∧
  (NoDup (Word.id <$> [Scenario.cat; Scenario.dog]) →
   NoDup (Word.id <$> queue (init [Scenario.dog; Scenario.cat] 1))) ∧
  ((0 ≤ 1)%Z →
   length (queue (init [Scenario.dog; Scenario.cat] 1))
     = Z.to_nat 1 `min` length [Scenario.cat; Scenario.dog]).
Proof.
  apply (dictation_queue_from_candidates [Scenario.cat; Scenario.dog]
           [Scenario.dog; Scenario.cat] 1).
  apply Permutation_swap.
Defined.

End DictationSessionFacts.

(** ** Strings and grading *)
Module GradingFacts.
Import JS JSString.

Lemma isWhiteSpace_toLowerCaseUnit (c : ascii) :
  isWhiteSpace (toLowerCaseUnit c) = isWhiteSpace c.
Proof. destruct c as [[] [] [] [] [] [] [] []]; reflexivity. Qed.

Lemma length_toLowerCase (s : string) :
  String.length (toLowerCase s) = String.length s.
Proof. induction s as [| c s IH]; simpl; [done | by rewrite IH]. Qed.

Lemma trimStart_toLowerCase (s : string) :
  trimStart (toLowerCase s) = toLowerCase (trimStart s).
Proof.
  induction s as [| c s IH]; simpl; [done |].
  rewrite isWhiteSpace_toLowerCaseUnit. by destruct (isWhiteSpace c).
Qed.

Lemma trimEnd_toLowerCase (s : string) :
  trimEnd (toLowerCase s) = toLowerCase (trimEnd s).
Proof.
  induction s as [| c s IH]; simpl; [done |].
  rewrite IH, isWhiteSpace_toLowerCaseUnit.
  destruct (trimEnd s); simpl; [by destruct (isWhiteSpace c) | done].
Qed.

Lemma trim_toLowerCase (s : string) : trim (toLowerCase s) = toLowerCase (trim s).
Proof. unfold trim. by rewrite trimStart_toLowerCase, trimEnd_toLowerCase. Qed.

Lemma trimStart_startsClean (s : string) : startsClean (trimStart s).
Proof.
  induction s as [| c s IH]; simpl; [done |].
  by destruct (isWhiteSpace c) eqn:Hc.
Qed.

Lemma trimStart_clean (s : string) : startsClean s → trimStart s = s.
Proof. destruct s as [| c s]; simpl; [done |]. by intros ->. Qed.

Lemma trimEnd_startsClean (s : string) : startsClean s → startsClean (trimEnd s).
Proof.
  destruct s as [| c s]; simpl; [done |]. intros Hc.
  destruct (trimEnd s); simpl; [by rewrite Hc |]; done.
Qed.

Lemma trimEnd_idemp (s : string) : trimEnd (trimEnd s) = trimEnd s.
Proof.
  induction s as [| c s IH]; simpl; [done |].
  destruct (trimEnd s) as [| c' t] eqn:Ht.
  - destruct (isWhiteSpace c) eqn:Hc; simpl; [done | by rewrite Hc].
  - cbn [trimEnd] in *. by rewrite IH.
Qed.

Lemma trim_idemp (s : string) : trim (trim s) = trim s.
Proof.
  unfold trim.
  rewrite (trimStart_clean (trimEnd (trimStart s)))
    by apply trimEnd_startsClean, trimStart_startsClean.
  apply trimEnd_idemp.
Qed.

Lemma length_trimStart (s : string) :
  String.length (trimStart s) ≤ String.length s ∧
  (String.length (trimStart s) = String.length s → trimStart s = s).
Proof.
  induction s as [| c s [IHle IHeq]]; simpl; [done |].
  destruct (isWhiteSpace c); simpl; [| done]. split; lia.
Qed.

Lemma length_trimEnd (s : string) :
  String.length (trimEnd s) ≤ String.length s ∧
  (String.length (trimEnd s) = String.length s → trimEnd s = s).
Proof.
  induction s as [| c s [IHle IHeq]]; simpl; [done |].
  destruct (trimEnd s) as [| c' t] eqn:Ht.
  - destruct (isWhiteSpace c); simpl in *; split; try lia.
    intros Hlen. f_equal. apply IHeq. lia.
  - simpl in *. split; [lia |]. intros Hlen. f_equal. apply IHeq. lia.
Qed.

Lemma length_trim (s : string) :
  String.length (trim s) = String.length s → trim s = s.
Proof.
  unfold trim. intros Hlen.
  destruct (length_trimStart s) as [Hle1 Heq1].
  destruct (length_trimEnd (trimStart s)) as [Hle2 Heq2].
  rewrite Heq2 by lia. apply Heq1. lia.
Qed.

(** X11.  A word can be spelled right if and only if its stored text has
    no leading or trailing whitespace: the typed text is trimmed before
    the comparison and the stored one is not, so a stored text with such
    whitespace is graded incorrect for every input. *)
Theorem spellable_iff_text_trimmed (w : Word.t) :
  (∃ input, DictationMode.isCorrect input w = true) ↔
  trim (Word.text w) = Word.text w.
Proof.
  unfold DictationMode.isCorrect. split.
  - intros [input Heq%bool_decide_eq_true].
    apply length_trim.
    rewrite <- (length_toLowerCase (trim (Word.text w))), <- trim_toLowerCase.
    by rewrite <- Heq, trim_toLowerCase, trim_idemp, Heq, length_toLowerCase.
  - intros Htrim. exists (Word.text w). apply bool_decide_eq_true.
    by rewrite Htrim.
Qed.

End GradingFacts.

(** ** App.tsx: learned words *)
Module AppFacts.
Import App.

Lemma find_fmap {A : Type} (p : A → bool) (f : A → A) (l : list A) :
  (∀ x, p (f x) = p x) → List.find p (f <$> l) = f <$> List.find p l.
Proof.
  intros Hp. induction l as [| x l IH]; [done |].
  cbn. rewrite Hp. by destruct (p x).
Qed.

Lemma filter_filter_andb {A : Type} (p q : A → bool) (l : list A) :
  List.filter p (List.filter q l) = List.filter (λ x, q x && p x) l.
Proof.
  induction l as [| x l IH]; [done |].
  simpl. destruct (q x); simpl; [| done]. destruct (p x); by rewrite IH.
Qed.

Lemma filter_ext_bool {A : Type} (p q : A → bool) (l : list A) :
  (∀ x, p x = q x) → List.filter p l = List.filter q l.
Proof. intros Hpq. induction l as [| x l IH]; [done |]. simpl. by rewrite Hpq, IH. Qed.

(** The book [updateLearnedWords] leaves in place of [book]. *)
Lemma updateLearnedWords_lookup (selectedBookId : option string)
    (learnedIds : list string) (prevBooks : list WordBook.t) (i : nat)
    (book : WordBook.t) :
  prevBooks !! i = Some book →
  updateLearnedWords selectedBookId learnedIds prevBooks !! i =
    Some (if falsy selectedBookId || bool_decide (length learnedIds = 0) then book
          else if bool_decide (Some (WordBook.id book) = selectedBookId) then
            WordBook.mk (WordBook.id book) (WordBook.name book) (WordBook.words book)
              (JSSet.ofArray (WordBook.learnedWordIds book ++ learnedIds))
              (WordBook.createdAt book)
          else book).
Proof.
  intros H. unfold updateLearnedWords.
  destruct (falsy selectedBookId || bool_decide (length learnedIds = 0)); [done |].
  by rewrite list_lookup_fmap, H.
Qed.

(** X12.  [updateLearnedWords] keeps every book in its place with its id,
    name and words, and never forgets a learned id.  It touches the
    selected book only, whose learned ids become the old ones followed by
    the new ones, each once; with no book selected or no id to add it
    changes nothing. *)
Theorem updateLearnedWords_spec (selectedBookId : option string)
    (learnedIds : list string) (prevBooks : list WordBook.t) (i : nat)
    (book : WordBook.t) :
  prevBooks !! i = Some book →
  length (updateLearnedWords selectedBookId learnedIds prevBooks) = length prevBooks ∧
  ∃ book',
    updateLearnedWords selectedBookId learnedIds prevBooks !! i = Some book' ∧
    WordBook.id book' = WordBook.id book ∧
    WordBook.name book' = WordBook.name book ∧
    WordBook.words book' = WordBook.words book ∧
    WordBook.createdAt book' = WordBook.createdAt book ∧
    (∀ w, w ∈ WordBook.learnedWordIds book → w ∈ WordBook.learnedWordIds book') ∧
    (Some (WordBook.id book) ≠ selectedBookId ∨ falsy selectedBookId = true ∨
     learnedIds = [] → book' = book) ∧
    (Some (WordBook.id book) = selectedBookId → falsy selectedBookId = false →
     learnedIds ≠ [] →
     WordBook.learnedWordIds book'
       = JSSet.ofArray (WordBook.learnedWordIds book ++ learnedIds) ∧
     NoDup (WordBook.learnedWordIds book') ∧
     ∀ w, w ∈ WordBook.learnedWordIds book' ↔
          w ∈ WordBook.learnedWordIds book ∨ w ∈ learnedIds).
Proof.
  intros H. split.
  { unfold updateLearnedWords. destruct (_ || _); [done | by rewrite length_fmap]. }
  eexists. split; [by apply updateLearnedWords_lookup |].
  destruct (falsy selectedBookId) eqn:Hf; simpl.
  { by split_and!. }
  case_bool_decide as Hlen; simpl.
  { apply length_zero_iff_nil in Hlen. by split_and!. }
  case_bool_decide as Hsel; simpl.
  - split_and!; try done.
    + intros w Hw. apply JSSetFacts.elem_of_ofArray, elem_of_app. by left.
    + intros [Hne | [[=] | ->]]; done.
    + intros _ _ _. split_and!; [done | apply JSSetFacts.NoDup_ofArray |].
      intros w. by rewrite JSSetFacts.elem_of_ofArray, elem_of_app.
  - by split_and!.
Qed.

Lemma updateLearnedWords_spec_witness :
  length (updateLearnedWords (Some "book-2") ["d"; "c"]
            [Scenario.fruit_book; Scenario.pets_book]) = 2 ∧
  ∃ book',
    updateLearnedWords (Some "book-2") ["d"; "c"]
      [Scenario.fruit_book; Scenario.pets_book] !! 1 = Some book' ∧
    WordBook.id book' = "book-2" ∧
    WordBook.name book' = "Pets" ∧
    WordBook.words book' = [Scenario.cat; Scenario.dog] ∧
    WordBook.createdAt book' = 0%Z ∧
    (∀ w, w ∈ ["c"] → w ∈ WordBook.learnedWordIds book') ∧
    (Some "book-2" ≠ Some "book-2" ∨ falsy (Some "book-2") = true ∨
     ["d"; "c"] = [] → book' = Scenario.pets_book) ∧
    (Some "book-2" = Some "book-2" → falsy (Some "book-2") = false →
     ["d"; "c"] ≠ [] →
     WordBook.learnedWordIds book' = JSSet.ofArray (["c"] ++ ["d"; "c"]) ∧
     NoDup (WordBook.learnedWordIds book') ∧
     ∀ w, w ∈ WordBook.learnedWordIds book' ↔ w ∈ ["c"] ∨ w ∈ ["d"; "c"]).
Proof.
  apply (updateLearnedWords_spec (Some "book-2") ["d"; "c"]
           [Scenario.fruit_book; Scenario.pets_book] 1 Scenario.pets_book).
  reflexivity.
Defined.

(** The active book after [updateLearnedWords] is the updated active book. *)
Lemma activeBook_updateLearnedWords (selectedBookId : option string)
    (learnedIds : list string) (books : list WordBook.t) (book : WordBook.t) :
  falsy selectedBookId = false →
  activeBook books selectedBookId = Some book →
  activeBook (updateLearnedWords selectedBookId learnedIds books) selectedBookId
    = Some (if bool_decide (length learnedIds = 0) then book
            else WordBook.mk (WordBook.id book) (WordBook.name book)
                   (WordBook.words book)
                   (JSSet.ofArray (WordBook.learnedWordIds book ++ learnedIds))
                   (WordBook.createdAt book)).
Proof.
  intros Hf Hact. unfold updateLearnedWords. rewrite Hf. simpl.
  case_bool_decide as Hlen; [done |].
  unfold activeBook in *. rewrite find_fmap.
  - rewrite Hact. simpl.
    apply find_some in Hact as [_ Hid]. rewrite Hid. reflexivity.
  - intros b.
    destruct (decide (Some (WordBook.id b) = selectedBookId)) as [Heq | Hne].
    + rewrite (bool_decide_eq_true_2 _ Heq). simpl. by apply bool_decide_eq_true_2.
    + rewrite (bool_decide_eq_false_2 _ Hne). simpl. by apply bool_decide_eq_false_2.
Qed.

(** What remains to study after an update: the words that remained
    before, without those whose id was added. *)
Lemma getSessionWords_updateLearnedWords (selectedBookId : option string)
    (learnedIds : list string) (books : list WordBook.t) (book : WordBook.t)
    (reviewWords : list Word.t) :
  falsy selectedBookId = false →
  activeBook books selectedBookId = Some book →
  getSessionWords false reviewWords
    (activeBook (updateLearnedWords selectedBookId learnedIds books) selectedBookId)
  = List.filter (λ w, negb (bool_decide (Word.id w ∈ learnedIds)))
      (getSessionWords false reviewWords (activeBook books selectedBookId)).
Proof.
  intros Hf Hact.
  rewrite (activeBook_updateLearnedWords _ _ _ _ Hf Hact), Hact. simpl.
  case_bool_decide as Hlen; simpl;
    rewrite filter_filter_andb; apply filter_ext_bool; intros w.
  - apply length_zero_iff_nil in Hlen as ->.
    rewrite (bool_decide_eq_false_2 (Word.id w ∈ [])) by apply not_elem_of_nil.
    by rewrite andb_true_r.
  - destruct (decide (Word.id w ∈ WordBook.learnedWordIds book)) as [Hold | Hold],
             (decide (Word.id w ∈ learnedIds)) as [Hnew | Hnew].
    all: rewrite ?(bool_decide_eq_true_2 _ Hold), ?(bool_decide_eq_false_2 _ Hold),
           ?(bool_decide_eq_true_2 _ Hnew), ?(bool_decide_eq_false_2 _ Hnew); simpl.
    all: first [ rewrite bool_decide_eq_true_2; [done |]
               | rewrite bool_decide_eq_false_2; [done |] ].
    all: rewrite JSSetFacts.elem_of_ofArray, elem_of_app; tauto.
Qed.

(** X13.  After [updateLearnedWords] the words offered for the next
    session of the selected book are those offered before, in the same
    order, without the ones whose id has just been learned. *)
Theorem next_session_skips_learned (selectedBookId : option string)
    (learnedIds : list string) (books : list WordBook.t) (book : WordBook.t)
    (reviewWords : list Word.t) :
  falsy selectedBookId = false →
  activeBook books selectedBookId = Some book →
  getSessionWords false reviewWords
    (activeBook (updateLearnedWords selectedBookId learnedIds books) selectedBookId)
  = List.filter (λ w, negb (bool_decide (Word.id w ∈ learnedIds)))
      (getSessionWords false reviewWords (activeBook books selectedBookId)).
Proof. apply getSessionWords_updateLearnedWords. Qed.

Lemma next_session_skips_learned_witness :
  getSessionWords false []
    (activeBook (updateLearnedWords (Some "book-1") ["B"]
                   [Scenario.fruit_book; Scenario.pets_book]) (Some "book-1"))
  = List.filter (λ w, negb (bool_decide (Word.id w ∈ ["B"])))
      (getSessionWords false []
         (activeBook [Scenario.fruit_book; Scenario.pets_book] (Some "book-1"))).
Proof.
  apply (next_session_skips_learned (Some "book-1") ["B"]
           [Scenario.fruit_book; Scenario.pets_book] Scenario.fruit_book []);
    reflexivity.
Defined.

End AppFacts.

(** ** From one session to the next *)
Module RoundFacts.

Lemma summary_learned_iff (amb : Ambient) (words : list Word.t) (targetCount : Z)
    (events : list StudyMode.Event) (summary : StudyMode.Result.t) (w : string) :
  StudyMode.result (StudyMode.session (StudyMode.init amb words targetCount) events)
    = Some summary →
  w ∈ StudyMode.Result.learnedIds summary ↔
  StudyMode.lastResponse w
    (StudyMode.answers (StudyMode.session (StudyMode.init amb words targetCount) events))
    = Some StudyMode.known.
Proof.
  intros Hres.
  destruct (StudyFacts.session_completed events _ [] summary
              (StudyFacts.Inv_init amb words targetCount) Hres)
    as (amb' & type & s0 & log0 & [Hl _ _ _] & Hcall & Hlog).
  simpl in Hlog. rewrite Hlog. clear Hlog.
  destruct (StudyFacts.handleResponse_summary_inv _ _ _ _ _ Hcall)
    as (item & H & -> & _ & _ & ->).
  rewrite (StudyFacts.answerTo_Some s0 item StudyMode.known H). simpl.
  rewrite JSSetFacts.elem_of_add, StudyFacts.lastResponse_snoc, Hl.
  case_bool_decide as Hw; [subst; tauto |].
  split; [intros [-> | ?]; done | by right].
Qed.

(** X14.  A study session of a book followed by the update of its learned
    words: a word that was offered is offered again next time exactly when
    the last response given for it was not [known] (in particular when it
    did not come up in the session). *)
Theorem study_then_update (selectedBookId : option string)
    (books : list WordBook.t) (book : WordBook.t) (reviewWords : list Word.t)
    (dailyGoal : Z) (amb : Ambient) (events : list StudyMode.Event)
    (summary : StudyMode.Result.t) (w : Word.t) :
  App.falsy selectedBookId = false →
  App.activeBook books selectedBookId = Some book →
  StudyMode.result
    (StudyMode.session
       (StudyMode.init amb
          (App.getSessionWords false reviewWords (App.activeBook books selectedBookId))
          (App.targetCount false
             (App.getSessionWords false reviewWords
                (App.activeBook books selectedBookId)) dailyGoal))
       events) = Some summary →
  w ∈ App.getSessionWords false reviewWords (App.activeBook books selectedBookId) →
  w ∈ App.getSessionWords false reviewWords
        (App.activeBook
           (App.updateLearnedWords selectedBookId
              (StudyMode.Result.learnedIds summary) books) selectedBookId) ↔
  StudyMode.lastResponse (Word.id w)
    (StudyMode.answers
       (StudyMode.session
          (StudyMode.init amb
             (App.getSessionWords false reviewWords
                (App.activeBook books selectedBookId))
             (App.targetCount false
                (App.getSessionWords false reviewWords
                   (App.activeBook books selectedBookId)) dailyGoal))
          events)) ≠ Some StudyMode.known.
Proof.
  intros Hf Hact Hres Hin.
  rewrite (AppFacts.getSessionWords_updateLearnedWords _ _ _ _ _ Hf Hact).
  rewrite list_elem_of_In, filter_In, <- list_elem_of_In.
  rewrite <- (summary_learned_iff _ _ _ _ _ (Word.id w) Hres).
  rewrite negb_true_iff, bool_decide_eq_false. tauto.
Qed.

Lemma study_then_update_witness :
  Scenario.B ∈ App.getSessionWords false []
      (App.activeBook
         (App.updateLearnedWords (Some "book-1") ["A"]
            [Scenario.fruit_book; Scenario.pets_book]) (Some "book-1")) ↔
  StudyMode.lastResponse "B"
    (StudyMode.answers
       (StudyMode.session (StudyMode.init Scenario.amb [Scenario.A; Scenario.B] 1)
          [StudyMode.Respond (Scenario.at_ 1) StudyMode.known]))
    ≠ Some StudyMode.known.
Proof.
  apply (study_then_update (Some "book-1")
           [Scenario.fruit_book; Scenario.pets_book] Scenario.fruit_book [] 1
           Scenario.amb [StudyMode.Respond (Scenario.at_ 1) StudyMode.known]
           (StudyMode.Result.mk 1 [] ["A"]) Scenario.B).
  - reflexivity.
  - reflexivity.
  - reflexivity.
  - apply list_elem_of_further, list_elem_of_here.
Defined.

End RoundFacts.

(** ** [Map<string, V>] and ErrorLog.tsx *)
Module ErrorLogFacts.
Import ErrorLog.

Lemma add_cons_eq (k : string) (l : JSSet.t) : JSSet.add k (k :: l) = k :: l.
Proof.
  unfold JSSet.add, JSSet.has.
  rewrite bool_decide_eq_true_2; [done | apply list_elem_of_here].
Qed.

Lemma add_cons_ne (k k' : string) (l : JSSet.t) :
  k' ≠ k → JSSet.add k (k' :: l) = k' :: JSSet.add k l.
Proof.
  intros Hne. unfold JSSet.add, JSSet.has.
  destruct (decide (k ∈ l)) as [Hin | Hin].
  - rewrite !bool_decide_eq_true_2; [done | done | by apply list_elem_of_further].
  - rewrite !bool_decide_eq_false_2; [done | done |].
    intros [? | ?]%elem_of_cons; by subst.
Qed.

Lemma keys_set {V : Type} (k : string) (v : V) (m : JSMap.t V) :
  (JSMap.set k v m).*1 = JSSet.add k (m.*1).
Proof.
  induction m as [| [k' v'] m IH].
  { simpl. unfold JSSet.add, JSSet.has.
    by rewrite bool_decide_eq_false_2 by apply not_elem_of_nil. }
  simpl. destruct (decide (k' = k)) as [-> | Hne].
  - rewrite bool_decide_eq_true_2 by done. apply eq_sym, add_cons_eq.
  - rewrite bool_decide_eq_false_2 by done.
    rewrite (add_cons_ne k k' _ Hne). simpl. f_equal. apply IH.
Qed.

Lemma keys_foldl_set {V : Type} (entries : list (string * V)) (m : JSMap.t V) :
  (foldl (λ m '(k, v), JSMap.set k v m) m entries).*1
    = foldl (λ s x, JSSet.add x s) (m.*1) (entries.*1).
Proof.
  revert m. induction entries as [| [k v] entries IH]; intros m; [done |].
  simpl. by rewrite IH, keys_set.
Qed.

(** The keys of [new Map(entries)], in iteration order. *)
Lemma keys_ofEntries {V : Type} (entries : list (string * V)) :
  (JSMap.ofEntries entries).*1 = JSSet.ofArray (entries.*1).
Proof. apply keys_foldl_set. Qed.

Lemma get_set {V : Type} (k k0 : string) (v : V) (m : JSMap.t V) :
  JSMap.get k (JSMap.set k0 v m)
    = if bool_decide (k0 = k) then Some v else JSMap.get k m.
Proof.
  unfold JSMap.get. induction m as [| [k1 v1] m IH]; simpl.
  - by case_bool_decide.
  - destruct (decide (k1 = k0)) as [-> | Hne].
    + rewrite (bool_decide_eq_true_2 (k0 = k0)) by done. simpl.
      by case_bool_decide.
    + rewrite (bool_decide_eq_false_2 (k1 = k0)) by done. simpl.
      destruct (decide (k1 = k)) as [-> | Hne'].
      * rewrite (bool_decide_eq_true_2 (k = k)) by done.
        by rewrite (bool_decide_eq_false_2 (k0 = k)) by done.
      * rewrite (bool_decide_eq_false_2 (k1 = k)) by done. apply IH.
Qed.

Lemma get_foldl_set {V : Type} (k : string) (entries : list (string * V))
    (m : JSMap.t V) :
  JSMap.get k (foldl (λ m '(k, v), JSMap.set k v m) m entries)
    = match last (filter (λ kv, kv.1 = k) entries) with
      | Some kv => Some kv.2
      | None => JSMap.get k m
      end.
Proof.
  revert m. induction entries as [| [k0 v] entries IH]; intros m; [done |].
  simpl. rewrite IH, get_set, filter_cons. simpl.
  case_bool_decide as Hk; simpl.
  - rewrite decide_True by done. rewrite last_cons.
    by destruct (last (filter _ entries)).
  - by rewrite decide_False by done.
Qed.

(** The last value set for a key is the one the map holds. *)
Lemma get_ofEntries {V : Type} (k : string) (entries : list (string * V)) :
  JSMap.get k (JSMap.ofEntries entries)
    = snd <$> last (filter (λ kv, kv.1 = k) entries).
Proof.
  unfold JSMap.ofEntries. rewrite get_foldl_set.
  by destruct (last (filter _ entries)).
Qed.

Lemma get_elem_of {V : Type} (k : string) (v : V) (m : JSMap.t V) :
  JSMap.get k m = Some v → (k, v) ∈ m.
Proof.
  unfold JSMap.get. induction m as [| [k1 v1] m IH]; simpl; [done |].
  case_bool_decide as Hk; simpl in *.
  - intros [= ->]. subst. apply list_elem_of_here.
  - intros Hget. apply list_elem_of_further. by apply IH.
Qed.

Lemma elem_of_get {V : Type} (k : string) (v : V) (m : JSMap.t V) :
  NoDup (m.*1) → (k, v) ∈ m → JSMap.get k m = Some v.
Proof.
  unfold JSMap.get. induction m as [| [k1 v1] m IH]; simpl.
  - intros _ Hin. by apply elem_of_nil in Hin.
  - intros [Hnin Hnd]%NoDup_cons [[= -> ->] | Hin]%elem_of_cons.
    + by rewrite bool_decide_eq_true_2.
    + rewrite bool_decide_eq_false_2; [by apply IH |].
      intros ->. apply Hnin. by apply (list_elem_of_fmap_2 fst) in Hin.
Qed.

(** The entries [confirmReview] builds its map from. *)
Lemma review_entries (errors : list ErrorRecord.t) :
  (λ item, (Word.id item, item)) <$> (toWord <$> errors)
    = (λ e, (ErrorRecord.wordId e, toWord e)) <$> errors.
Proof. by rewrite <- list_fmap_compose. Qed.

Lemma last_filter_entries (k : string) (errors : list ErrorRecord.t) :
  last (filter (λ kv, kv.1 = k) ((λ e, (ErrorRecord.wordId e, toWord e)) <$> errors))
    = (λ e, (ErrorRecord.wordId e, toWord e))
        <$> last (filter (λ e, ErrorRecord.wordId e = k) errors).
Proof.
  induction errors as [| e errors IH]; [done |].
  rewrite fmap_cons, !filter_cons. simpl.
  destruct (decide (ErrorRecord.wordId e = k)) as [Hk | Hk]; [| done].
  rewrite !last_cons, IH.
  by destruct (last (filter _ errors)).
Qed.

Lemma confirmReview_get (k : string) (errors : list ErrorRecord.t) :
  JSMap.get k
    (JSMap.ofEntries ((λ item, (Word.id item, item)) <$> (toWord <$> errors)))
    = toWord <$> last (filter (λ e, ErrorRecord.wordId e = k) errors).
Proof.
  rewrite review_entries, get_ofEntries, last_filter_entries.
  by destruct (last (filter _ errors)).
Qed.

Lemma confirmReview_keys (errors : list ErrorRecord.t) :
  (JSMap.ofEntries ((λ item, (Word.id item, item)) <$> (toWord <$> errors))).*1
    = JSSet.ofArray (ErrorRecord.wordId <$> errors).
Proof.
  rewrite review_entries, keys_ofEntries. f_equal.
  by rewrite <- list_fmap_compose.
Qed.

(** X15.  The words [confirmReview] hands over for a review hold each
    failed word once: their ids are the [wordId]s of the filtered errors,
    in the order of first occurrence, and the word kept for an id is the
    one of the last record with that id. *)
Theorem confirmReview_unique (filteredErrors : list ErrorRecord.t) :
  Word.id <$> confirmReview filteredErrors
    = JSSet.ofArray (ErrorRecord.wordId <$> filteredErrors) ∧
  NoDup (Word.id <$> confirmReview filteredErrors) ∧
  (∀ k, k ∈ Word.id <$> confirmReview filteredErrors ↔
        k ∈ ErrorRecord.wordId <$> filteredErrors) ∧
  (∀ word, word ∈ confirmReview filteredErrors ↔
           ∃ e, last (filter (λ e', ErrorRecord.wordId e' = Word.id word)
                        filteredErrors) = Some e ∧
                word = toWord e).
Proof.
  unfold confirmReview, JSMap.values. cbn zeta.
  set (m := JSMap.ofEntries _).
  pose proof (confirmReview_keys filteredErrors) as Hkeys. fold m in Hkeys.
  assert (∀ k word, (k, word) ∈ m → JSMap.get k m = Some word) as Hget.
  { intros k word. apply elem_of_get. rewrite Hkeys. apply JSSetFacts.NoDup_ofArray. }
  assert (∀ k word, JSMap.get k m = Some word →
            k = Word.id word ∧
            ∃ e, last (filter (λ e', ErrorRecord.wordId e' = k) filteredErrors) = Some e ∧
                 word = toWord e) as Hlast.
  { intros k word. unfold m. rewrite confirmReview_get.
    destruct (last (filter _ filteredErrors)) as [e |] eqn:He; [| done].
    intros [= <-]. split; [| by exists e].
    apply last_Some_elem_of, list_elem_of_filter in He as [<- _]. done. }
  assert (Word.id <$> m.*2 = m.*1) as Hids.
  { rewrite <- list_fmap_compose. apply list_fmap_ext. intros i [k word] Hi. simpl.
    apply list_elem_of_lookup_2, Hget, Hlast in Hi as [-> _]. done. }
  rewrite Hids, Hkeys. split_and!.
  - done.
  - apply JSSetFacts.NoDup_ofArray.
  - intros k. apply JSSetFacts.elem_of_ofArray.
  - intros word. split.
    + intros ([k word'] & -> & Hin)%list_elem_of_fmap. simpl.
      apply Hget, Hlast in Hin as [-> Hex]. done.
    + intros (e & He & ->).
      assert (JSMap.get (Word.id (toWord e)) m = Some (toWord e)) as Hg.
      { unfold m. by rewrite confirmReview_get, He. }
      apply get_elem_of in Hg. by apply (list_elem_of_fmap_2 snd) in Hg.
Qed.

End ErrorLogFacts.

(** ** Reviewing the error log *)
Module ReviewFacts.

Lemma slice0_all {A : Type} (l : list A) (n : nat) :
  length l = n → JS.slice0 (Z.of_nat n) l = l.
Proof.
  intros <-. unfold JS.slice0.
  destruct (Z.of_nat (length l) <? 0)%Z eqn:Hneg.
  { apply Z.ltb_lt in Hneg. lia. }
  rewrite Nat2Z.id. by apply take_ge.
Qed.

(** X16.  A dictation started from the error log (the words of
    [confirmReview], with their number as [targetCount]) queues every
    failed word exactly once: [totalCount] is the number of distinct
    [wordId]s of the filtered errors, and the summary has no two error
    records for one word, each for a word of the log. *)
Theorem review_dictation (filteredErrors : list ErrorRecord.t)
    (activeBook : option WordBook.t) (dailyGoal : Z) (shuffled : list Word.t)
    (events : list DictationMode.Event) (summary : DictationMode.Result.t) :
  shuffled ≡ₚ App.getSessionWords true (ErrorLog.confirmReview filteredErrors) activeBook →
  DictationMode.result
    (DictationMode.session
       (DictationMode.init shuffled
          (App.targetCount true
             (App.getSessionWords true (ErrorLog.confirmReview filteredErrors) activeBook)
             dailyGoal))
       events) = Some summary →
  DictationMode.Result.totalCount summary
    = size (list_to_set (ErrorRecord.wordId <$> filteredErrors) : gset string) ∧
  NoDup (ErrorRecord.wordId <$> DictationMode.Result.errors summary) ∧
  ∀ k, k ∈ ErrorRecord.wordId <$> DictationMode.Result.errors summary →
       k ∈ ErrorRecord.wordId <$> filteredErrors.
Proof.
  simpl. intros Hperm Hres.
  destruct (ErrorLogFacts.confirmReview_unique filteredErrors) as (Hids & Hnd & Hin & _).
  pose proof (DictationFacts.session_errors_sublist events _ summary
                (DictationFacts.recorded_init _ _) Hres) as Hsub.
  destruct (DictationFacts.session_totalCount _ _ _ Hres) as [-> _].
  simpl in *.
  rewrite (slice0_all shuffled) in * by (by rewrite Hperm).
  assert (Word.id <$> shuffled ≡ₚ Word.id <$> ErrorLog.confirmReview filteredErrors)
    as Hpid by (by rewrite Hperm).
  split_and!.
  - rewrite <- JSSetFacts.size_ofArray, <- Hids. unfold JSSet.size.
    by rewrite <- (length_fmap Word.id shuffled), Hpid.
  - eapply sublist_NoDup; [| exact Hsub]. by rewrite Hpid.
  - intros k Hk. apply Hin. rewrite <- Hpid. by eapply elem_of_sublist.
Qed.

Lemma review_dictation_witness :
  DictationMode.Result.totalCount
    (DictationMode.Result.mk 2 [Scenario.cat_failed] ["B"])
    = size (list_to_set (ErrorRecord.wordId <$> Scenario.error_log) : gset string) ∧
  NoDup (ErrorRecord.wordId <$> [Scenario.cat_failed]) ∧
  ∀ k, k ∈ ErrorRecord.wordId <$> [Scenario.cat_failed] →
       k ∈ ErrorRecord.wordId <$> Scenario.error_log.
Proof.
  apply (review_dictation Scenario.error_log None 20
           [Scenario.cat; Word.mk "B" "bread" "/b/" "food"]
           [DictationMode.Change "dog"; DictationMode.Submit (Scenario.at_ 1);
            DictationMode.KeyDown "Enter";
            DictationMode.Change " Bread"; DictationMode.Submit (Scenario.at_ 2);
            DictationMode.KeyDown "Enter"]
           (DictationMode.Result.mk 2 [Scenario.cat_failed] ["B"])).
  - apply Permutation_swap.
  - reflexivity.
Defined.

Lemma filter_all_true {A : Type} (p : A → bool) (l : list A) :
  (∀ x, x ∈ l → p x = true) → List.filter p l = l.
Proof.
  induction l as [| x l IH]; intros Hp; [done |].
  simpl. rewrite (Hp x) by apply list_elem_of_here.
  f_equal. apply IH. intros y Hy. by apply Hp, list_elem_of_further.
Qed.

Lemma filter_all_false {A : Type} (p : A → bool) (l : list A) :
  (∀ x, x ∈ l → p x = false) → List.filter p l = [].
Proof.
  induction l as [| x l IH]; intros Hp; [done |].
  simpl. rewrite (Hp x) by apply list_elem_of_here.
  apply IH. intros y Hy. by apply Hp, list_elem_of_further.
Qed.

(** Every record DictationMode holds is a dictation record. *)
Lemma dictation_records_step (e : DictationMode.Event) (s s' : DictationMode.State)
    (summary : option DictationMode.Result.t) :
  (∀ r, r ∈ DictationMode.sessionErrors s → ErrorRecord.type r = ErrorRecord.dictation) →
  DictationMode.dispatch e s = Returns (s', summary) →
  ∀ r, r ∈ DictationMode.sessionErrors s' → ErrorRecord.type r = ErrorRecord.dictation.
Proof.
  intros Hall.
  assert (∀ s1 o, DictationMode.nextWord s s = Returns (s1, o) →
                  DictationMode.sessionErrors s1 = DictationMode.sessionErrors s) as Hnext.
  { intros s1 o. rewrite DictationFacts.nextWord_cases.
    case_bool_decide; by intros [= <- <-]. }
  destruct e as [value | amb | key |]; simpl.
  - by intros [= <- <-].
  - unfold DictationMode.handleSubmit.
    destruct (DictationMode.currentWord s) as [w |]; [| by intros [= <- <-]].
    case_bool_decide; [by intros [= <- <-] |].
    destruct (DictationMode.isCorrect _ w); intros [= <- <-]; simpl; [done |].
    intros r [Hin | ->%list_elem_of_singleton]%elem_of_app; [by apply Hall | done].
  - unfold DictationMode.handleKeyDown. destruct (_ && _); [| by intros [= <- <-]].
    intros Hcall. by rewrite (Hnext _ _ Hcall).
  - intros Hcall. by rewrite (Hnext _ _ Hcall).
Qed.

Lemma dictation_records_session (events : list DictationMode.Event)
    (s : DictationMode.State) (summary : DictationMode.Result.t) :
  (∀ r, r ∈ DictationMode.sessionErrors s → ErrorRecord.type r = ErrorRecord.dictation) →
  DictationMode.result (DictationMode.session s events) = Some summary →
  ∀ r, r ∈ DictationMode.Result.errors summary →
       ErrorRecord.type r = ErrorRecord.dictation.
Proof.
  revert s. induction events as [| e events IH]; intros s Hall Hres; [done |].
  simpl in *.
  destruct (DictationMode.dispatch e s) as [[s' [sm |]] | err] eqn:Hcall;
    simpl in *; [| | done].
  - injection Hres as ->.
    by destruct (DictationFacts.dispatch_summary _ _ _ _ Hcall) as (_ & -> & _).
  - apply (IH s'); [| done]. by eapply dictation_records_step.
Qed.

(** X17.  The error log's mode filters tell the two kinds of session
    apart: of the errors of a study summary followed by those of a
    dictation summary, the filter [learning] keeps exactly the first, the
    filter [dictation] exactly the second, and [all] keeps both. *)
Theorem filters_separate_sessions :
  ∀ amb words targetCount studyEvents studySummary
    shuffled targetCount' dictationEvents dictationSummary,
    StudyMode.result
      (StudyMode.session (StudyMode.init amb words targetCount) studyEvents)
      = Some studySummary →
    DictationMode.result
      (DictationMode.session (DictationMode.init shuffled targetCount') dictationEvents)
      = Some dictationSummary →
    let log := StudyMode.Result.errors studySummary
                 ++ DictationMode.Result.errors dictationSummary in
    ErrorLog.filteredErrors ErrorLog.learning log
      = StudyMode.Result.errors studySummary ∧
    ErrorLog.filteredErrors ErrorLog.dictation log
      = DictationMode.Result.errors dictationSummary ∧
    ErrorLog.filteredErrors ErrorLog.all log = log.
Proof.
  intros amb words targetCount studyEvents studySummary shuffled targetCount'
    dictationEvents dictationSummary Hstudy Hdict log.
  assert (∀ r, r ∈ StudyMode.Result.errors studySummary →
               ErrorRecord.type r = ErrorRecord.learning) as Hs.
  { destruct (StudySessionFacts.session_completed_shape studyEvents _ _ [] studySummary
                (StudyFacts.Inv_init amb words targetCount)
                (StudySessionFacts.Shape_init amb words targetCount) Hstudy)
      as (s0 & log0 & item & _ & [_ _ _ _ Hf _] & _ & _ & _ & -> & _).
    intros r Hr. by destruct (Hf r Hr). }
  assert (∀ r, r ∈ DictationMode.Result.errors dictationSummary →
               ErrorRecord.type r = ErrorRecord.dictation) as Hd.
  { apply (dictation_records_session dictationEvents
             (DictationMode.init shuffled targetCount') dictationSummary); [| done].
    intros r Hr. by apply elem_of_nil in Hr. }
  unfold log. simpl. rewrite !List.filter_app. split_and!; [| | done].
  - rewrite (filter_all_true _ (StudyMode.Result.errors studySummary)),
      (filter_all_false _ (DictationMode.Result.errors dictationSummary)).
    + apply app_nil_r.
    + intros r Hr. unfold ErrorLog.hasType. by rewrite (Hd r Hr).
    + intros r Hr. unfold ErrorLog.hasType. by rewrite (Hs r Hr).
  - rewrite (filter_all_false _ (StudyMode.Result.errors studySummary)),
      (filter_all_true _ (DictationMode.Result.errors dictationSummary)).
    + done.
    + intros r Hr. unfold ErrorLog.hasType. by rewrite (Hd r Hr).
    + intros r Hr. unfold ErrorLog.hasType. by rewrite (Hs r Hr).
Qed.

Lemma filters_separate_sessions_witness :
  ErrorLog.filteredErrors ErrorLog.learning [Scenario.B_failed; Scenario.cat_failed]
    = [Scenario.B_failed] ∧
  ErrorLog.filteredErrors ErrorLog.dictation [Scenario.B_failed; Scenario.cat_failed]
    = [Scenario.cat_failed] ∧
  ErrorLog.filteredErrors ErrorLog.all [Scenario.B_failed; Scenario.cat_failed]
    = [Scenario.B_failed; Scenario.cat_failed].
Proof.
  apply (filters_separate_sessions Scenario.amb [Scenario.A; Scenario.B] 2
           Scenario.spec_events Scenario.spec_summary
           [Scenario.cat] 1 Scenario.cat_events Scenario.cat_summary);
    reflexivity.
Defined.

End ReviewFacts.

(** ** StudyMode: a response fired from an earlier render *)
Module StaleFacts.
Import StudyMode.

(** X18.  When [handleResponse] runs a second time from the render of the
    first call (the delayed [vague] and [unknown] buttons both clicked on
    one card), the second call does not build on the first: the queue it
    sets is the rendered queue plus its own requeued entries, so the
    entries requeued by the first call are dropped, and the cursor ends
    one past the rendered one, not two; the functional updates of both
    calls, to the errors and the learned set, are kept. *)
Theorem second_response_from_same_render (amb1 amb2 : Ambient)
    (type1 type2 : ResponseType) (render : State) (item : QueueItem.t) :
  currentItem render = Some item →
  type1 ≠ known → type2 ≠ known →
  ∃ st1 st2 extra,
    handleResponse amb1 type1 render render = Returns (st1, None) ∧
    handleResponse amb2 type2 render st1 = Returns (st2, None) ∧
    length (queue st1) = length (queue render) + requeueCount type1 ∧
    queue st2 = queue render ++ extra ∧
    length extra = requeueCount type2 ∧
    currentIndex st2 = currentIndex render + 1 ∧
    sessionErrors st2
      = recordError amb2 (QueueItem.word item)
          (recordError amb1 (QueueItem.word item) (sessionErrors render)) ∧
    Word.id (QueueItem.word item) ∉ learnedIds st2.
Proof.
  intros H Hty1 Hty2. pose proof (StudyFacts.currentItem_lt _ _ H) as Hlt.
  rewrite (StudyFacts.handleResponse_requeue amb1 type1 render item H Hty1). cbn zeta.
  unfold handleResponse. rewrite H.
  destruct type2; [done | |]; cbn zeta beta iota;
    (rewrite bool_decide_eq_false_2 by (rewrite ?length_app; simpl; lia));
    eexists _, _, _; (split; [reflexivity |]); (split; [reflexivity |]); simpl;
    (split_and!;
       [ by rewrite length_app, length_imap, length_replicate
       | reflexivity | reflexivity | reflexivity | reflexivity
       | intros [Hne _]%JSSetFacts.elem_of_delete; by apply Hne ]).
Qed.

Lemma second_response_from_same_render_witness :
  ∃ st1 st2 extra,
    handleResponse (Scenario.at_ 2) vague Scenario.on_B Scenario.on_B
      = Returns (st1, None) ∧
    handleResponse (Scenario.at_ 3) unknown Scenario.on_B st1 = Returns (st2, None) ∧
    length (queue st1) = length (queue Scenario.on_B) + requeueCount vague ∧
    queue st2 = queue Scenario.on_B ++ extra ∧
    length extra = requeueCount unknown ∧
    currentIndex st2 = currentIndex Scenario.on_B + 1 ∧
    sessionErrors st2
      = recordError (Scenario.at_ 3) Scenario.B
          (recordError (Scenario.at_ 2) Scenario.B (sessionErrors Scenario.on_B)) ∧
    "B" ∉ learnedIds st2.
Proof.
  apply (second_response_from_same_render (Scenario.at_ 2) (Scenario.at_ 3)
           vague unknown Scenario.on_B (QueueItem.mk Scenario.B "uuid-0-1"));
    [reflexivity | discriminate | discriminate].
Defined.

End StaleFacts.

(** ** What dictation accepts *)
Module SpellingFacts.
Import JS Grading DictationMode.

(** A property of characters that holds of the 256 code units holds of
    every character. *)
Lemma ascii_forall (P : ascii → bool) :
  forallb (λ n, P (ascii_of_nat n)) (seq 0 256) = true → ∀ c, P c = true.
Proof.
  intros Hall c. rewrite <- (ascii_nat_embedding c).
  rewrite forallb_forall in Hall. apply Hall, in_seq.
  pose proof (nat_ascii_bounded c). lia.
Qed.

(** [JS.isWhiteSpace] holds of the seven whitespace characters and of no
    other. *)
Lemma isWhiteSpace_whitespace (c : ascii) :
  isWhiteSpace c = true ↔ whitespace c.
Proof.
  assert (forallb
            (λ n, bool_decide (isWhiteSpace (ascii_of_nat n) = true ↔
                               whitespace (ascii_of_nat n)))
            (seq 0 256) = true) as Hall by (vm_compute; reflexivity).
  pose proof (ascii_forall
                (λ c, bool_decide (isWhiteSpace c = true ↔ whitespace c))
                Hall c) as Hc.
  by apply bool_decide_eq_true in Hc.
Qed.

Lemma isWhiteSpace_false (c : ascii) :
  isWhiteSpace c = false ↔ ¬ whitespace c.
Proof.
  rewrite <- isWhiteSpace_whitespace. by destruct (isWhiteSpace c).
Qed.

(** [JS.isUpperCase] holds of the capitals; the lower-case form of a
    capital is its small letter, which is no capital. *)
Lemma isUpperCase_capital (c : ascii) :
  (isUpperCase c = true ↔ capital c) ∧
  (isUpperCase c = true →
     nat_of_ascii (toLowerCaseUnit c) = nat_of_ascii c + 32 ∧
     isUpperCase (toLowerCaseUnit c) = false).
Proof.
  assert (forallb
            (λ n, bool_decide
                    ((isUpperCase (ascii_of_nat n) = true ↔
                      capital (ascii_of_nat n)) ∧
                     (isUpperCase (ascii_of_nat n) = true →
                        nat_of_ascii (toLowerCaseUnit (ascii_of_nat n))
                          = nat_of_ascii (ascii_of_nat n) + 32 ∧
                        isUpperCase (toLowerCaseUnit (ascii_of_nat n)) = false)))
            (seq 0 256) = true) as Hall by (vm_compute; reflexivity).
  pose proof (ascii_forall
                (λ c, bool_decide
                        ((isUpperCase c = true ↔ capital c) ∧
                         (isUpperCase c = true →
                            nat_of_ascii (toLowerCaseUnit c) = nat_of_ascii c + 32 ∧
                            isUpperCase (toLowerCaseUnit c) = false)))
                Hall c) as Hc.
  by apply bool_decide_eq_true in Hc.
Qed.

Lemma nat_of_ascii_inj (c d : ascii) : nat_of_ascii c = nat_of_ascii d → c = d.
Proof.
  intros Heq. by rewrite <- (ascii_nat_embedding c), <- (ascii_nat_embedding d), Heq.
Qed.

Lemma toLowerCaseUnit_small (c : ascii) :
  isUpperCase c = false → toLowerCaseUnit c = c.
Proof. unfold toLowerCaseUnit. by intros ->. Qed.

Lemma toLowerCaseUnit_smallOf (u l : ascii) :
  smallOf u l → toLowerCaseUnit u = l ∧ toLowerCaseUnit l = l.
Proof.
  intros [Hu Hl]. destruct (isUpperCase_capital u) as [Hcap Hlow].
  apply Hcap in Hu. destruct (Hlow Hu) as [Hnat Hsmall].
  assert (toLowerCaseUnit u = l) as <- by (apply nat_of_ascii_inj; lia).
  split; [done | by apply toLowerCaseUnit_small].
Qed.

(** Two characters have the same lower-case form exactly when they are
    the same letter. *)
Lemma toLowerCaseUnit_sameLetter (c d : ascii) :
  toLowerCaseUnit c = toLowerCaseUnit d ↔ sameLetter c d.
Proof.
  split.
  - intros Heq.
    destruct (isUpperCase_capital c) as [Hc Hc'].
    destruct (isUpperCase_capital d) as [Hd Hd'].
    destruct (isUpperCase c) eqn:Huc, (isUpperCase d) eqn:Hud.
    + left. apply nat_of_ascii_inj.
      destruct (Hc' eq_refl) as [Hnc _]. destruct (Hd' eq_refl) as [Hnd _].
      rewrite Heq in Hnc. lia.
    + right. left. rewrite (toLowerCaseUnit_small d Hud) in Heq. subst d.
      split; [by apply Hc | by apply Hc'].
    + right. right. rewrite (toLowerCaseUnit_small c Huc) in Heq. subst c.
      split; [by apply Hd | by apply Hd'].
    + left. by rewrite (toLowerCaseUnit_small c Huc),
                       (toLowerCaseUnit_small d Hud) in Heq.
  - intros [-> | [Hs | Hs]]; [done | |];
      destruct (toLowerCaseUnit_smallOf _ _ Hs) as [-> ->]; done.
Qed.

Lemma toLowerCase_equalIgnoringCase (a b : string) :
  toLowerCase a = toLowerCase b ↔ equalIgnoringCase a b.
Proof.
  revert b. induction a as [| c a IH]; intros [| d b]; simpl; try done.
  rewrite <- IH, <- toLowerCaseUnit_sameLetter.
  split; [by intros [= -> ->] | by intros [-> ->]].
Qed.

(** *** Trimming *)

Lemma trimEnd_cons (c : ascii) (s : string) :
  trimEnd (String c s) =
    match trimEnd s with
    | EmptyString => if isWhiteSpace c then EmptyString else String c EmptyString
    | t => String c t
    end.
Proof. done. Qed.

Lemma append_cons (c : ascii) (a b : string) :
  String c a +:+ b = String c (a +:+ b).
Proof. done. Qed.

Lemma trimStart_split (s : string) :
  ∃ pre, s = pre +:+ trimStart s ∧ allWhitespace pre.
Proof.
  induction s as [| c s (pre & Heq & Hpre)]; simpl.
  - by exists "".
  - destruct (isWhiteSpace c) eqn:Hc.
    + exists (String c pre). split; [by rewrite append_cons, <- Heq |].
      split; [by apply isWhiteSpace_whitespace | done].
    + by exists "".
Qed.

Lemma trimEnd_split (s : string) :
  ∃ post, s = trimEnd s +:+ post ∧ allWhitespace post.
Proof.
  induction s as [| c s (post & Heq & Hpost)].
  - by exists "".
  - rewrite trimEnd_cons. destruct (trimEnd s) as [| d t].
    + change (s = post) in Heq. subst post. destruct (isWhiteSpace c) eqn:Hc.
      * exists (String c s). simpl. split; [done |].
        split; [by apply isWhiteSpace_whitespace | done].
      * by exists s.
    + exists post. split; [by rewrite append_cons, <- Heq | done].
Qed.

Lemma trimStart_append (pre s : string) :
  allWhitespace pre → trimStart (pre +:+ s) = trimStart s.
Proof.
  induction pre as [| c pre IH]; [done |].
  intros [Hc%isWhiteSpace_whitespace Hpre]. rewrite append_cons. simpl.
  rewrite Hc. by apply IH.
Qed.

Lemma trimStart_allWhitespace (s : string) :
  allWhitespace s → trimStart s = "".
Proof.
  induction s as [| c s IH]; simpl; [done |].
  intros [Hc%isWhiteSpace_whitespace Hs]. rewrite Hc. by apply IH.
Qed.

Lemma trimEnd_allWhitespace (s : string) :
  allWhitespace s → trimEnd s = "".
Proof.
  induction s as [| c s IH]; [done |].
  intros [Hc%isWhiteSpace_whitespace Hs]. rewrite trimEnd_cons, (IH Hs).
  by rewrite Hc.
Qed.

Lemma trimEnd_append (s post : string) :
  allWhitespace post → trimEnd (s +:+ post) = trimEnd s.
Proof.
  intros Hpost. induction s as [| c s IH].
  - by apply trimEnd_allWhitespace.
  - change (String c s +:+ post) with (String c (s +:+ post)).
    by rewrite !trimEnd_cons, IH.
Qed.

(** What [trimEnd] leaves does not end with whitespace, and a text that
    does not end with whitespace is left as it is. *)
Lemma trimEnd_lastChar (s : string) (c : ascii) (rest : string) :
  trimEnd s = String c rest → ¬ whitespace (lastChar c rest).
Proof.
  revert c rest. induction s as [| a s IH]; intros c rest; [done |].
  rewrite trimEnd_cons. destruct (trimEnd s) as [| b t].
  - destruct (isWhiteSpace a) eqn:Ha; [done |].
    intros [= <- <-]. simpl. by apply isWhiteSpace_false.
  - intros [= <- <-]. simpl. by apply IH.
Qed.

Lemma trimEnd_clean (c : ascii) (rest : string) :
  ¬ whitespace (lastChar c rest) → trimEnd (String c rest) = String c rest.
Proof.
  revert c. induction rest as [| d rest IH]; intros c Hlast.
  - simpl in *. apply isWhiteSpace_false in Hlast. by rewrite Hlast.
  - rewrite trimEnd_cons, (IH d Hlast). done.
Qed.

(** [trim] takes a text apart into whitespace, a core without whitespace
    around it, and whitespace. *)
Lemma trim_split (s : string) :
  ∃ pre post,
    s = pre +:+ trim s +:+ post ∧ allWhitespace pre ∧ allWhitespace post ∧
    noSurroundingWhitespace (trim s).
Proof.
  destruct (trimStart_split s) as (pre & Hs & Hpre).
  destruct (trimEnd_split (trimStart s)) as (post & Ht & Hpost).
  exists pre, post. unfold trim. split_and!; [| done | done |].
  - by rewrite <- Ht.
  - pose proof (GradingFacts.trimEnd_startsClean _
                  (GradingFacts.trimStart_startsClean s)) as Hstart.
    destruct (trimEnd (trimStart s)) as [| c rest] eqn:Hcore; [done |].
    split.
    + by apply isWhiteSpace_false.
    + by eapply trimEnd_lastChar.
Qed.

(** And it is the only way to take it apart so. *)
Lemma trim_parts (pre core post : string) :
  allWhitespace pre → allWhitespace post → noSurroundingWhitespace core →
  trim (pre +:+ core +:+ post) = core.
Proof.
  intros Hpre Hpost Hcore. unfold trim. rewrite (trimStart_append _ _ Hpre).
  destruct core as [| c rest].
  - change ("" +:+ post) with post.
    by rewrite (trimStart_allWhitespace _ Hpost).
  - destruct Hcore as [Hc%isWhiteSpace_false Hlast].
    assert (trimStart (String c rest +:+ post) = String c rest +:+ post) as ->
      by (rewrite append_cons; simpl; by rewrite Hc).
    rewrite (trimEnd_append _ _ Hpost). by apply trimEnd_clean.
Qed.

(** The comparison of [handleSubmit] accepts the texts that match. *)
Lemma isCorrect_matches (typed : string) (w : Word.t) :
  isCorrect typed w = true ↔ matches typed (Word.text w).
Proof.
  unfold isCorrect. rewrite bool_decide_eq_true, toLowerCase_equalIgnoringCase.
  split.
  - intros Heq. destruct (trim_split typed) as (pre & post & Hs & Hpre & Hpost & Hcore).
    by exists pre, (trim typed), post.
  - intros (pre & core & post & -> & Hpre & Hpost & Hcore & Heq).
    by rewrite trim_parts.
Qed.

(** C6.  A submission on a pending entry is graded correct if and only if
    the typed text is the current word's text up to letter case, with any
    whitespace before and after it: the typed text is some whitespace, a
    core that neither starts nor ends with whitespace, and some
    whitespace, and the core has the length of the word's text and at
    every position the same character or the other case of the same
    letter.  A match marks the entry correct and appends the word's id to
    [learnedIds]; anything else marks it incorrect and appends an error
    record for the word.  (Characters are code units below U+0100.) *)
Theorem submit_accepts_trimmed_ignoring_case (amb : Ambient) (s : State)
    (w : Word.t) :
  currentWord s = Some w →
  feedback s = none →
  ∃ s',
    handleSubmit amb s s = Returns s' ∧
    (feedback s' = correct ↔ matches (input s) (Word.text w)) ∧
    (matches (input s) (Word.text w) →
       feedback s' = correct ∧
       learnedIds s' = learnedIds s ++ [Word.id w] ∧
       sessionErrors s' = sessionErrors s) ∧
    (¬ matches (input s) (Word.text w) →
       feedback s' = incorrect ∧
       sessionErrors s' = sessionErrors s ++ [errorRecord amb w] ∧
       ErrorRecord.wordId (errorRecord amb w) = Word.id w ∧
       learnedIds s' = learnedIds s).
Proof.
  intros H Hfb. rewrite (DictationFacts.handleSubmit_pending amb s w H Hfb).
  pose proof (isCorrect_matches (input s) w) as Hm.
  destruct (isCorrect (input s) w); eexists; (split; [reflexivity |]); simpl.
  - assert (matches (input s) (Word.text w)) as Hyes by by apply Hm.
    by split_and!.
  - assert (¬ matches (input s) (Word.text w)) as Hno
      by (intros Hyes; by apply Hm in Hyes).
    split_and!; [by split | done | done].
Qed.

(** The word [apple]: typed with two spaces and a TAB before, capitals in
    the middle and a space and a line feed after, it is accepted, and so
    is "Apple " with a space after; typed with one letter missing it is
    not, and an error record is made. *)
Lemma submit_accepts_trimmed_ignoring_case_witness :
  (∃ s',
     handleSubmit Scenario.amb
       (setInput "Apple " (init [Scenario.apple] 1))
       (setInput "Apple " (init [Scenario.apple] 1)) = Returns s' ∧
     feedback s' = correct ∧ learnedIds s' = ["a"] ∧ sessionErrors s' = []) ∧
  (∃ s',
     handleSubmit Scenario.amb
       (setInput Scenario.typed_apple (init [Scenario.apple] 1))
       (setInput Scenario.typed_apple (init [Scenario.apple] 1)) = Returns s' ∧
     feedback s' = correct ∧ learnedIds s' = ["a"] ∧ sessionErrors s' = []) ∧
  (∃ s',
     handleSubmit Scenario.amb
       (setInput Scenario.typed_aple (init [Scenario.apple] 1))
       (setInput Scenario.typed_aple (init [Scenario.apple] 1)) = Returns s' ∧
     feedback s' = incorrect ∧
     ErrorRecord.wordId <$> sessionErrors s' = ["a"] ∧ learnedIds s' = []).
Proof.
  split_and!.
  - destruct (submit_accepts_trimmed_ignoring_case Scenario.amb
                (setInput "Apple " (init [Scenario.apple] 1))
                Scenario.apple eq_refl eq_refl)
      as (s' & Hcall & _ & Hmatch & _).
    exists s'. split; [exact Hcall |]. apply Hmatch.
    exists "", "Apple", " ".
    split; [reflexivity |].
    split; [exact I |].
    split; [simpl; split_and!; compute_done |].
    split; [simpl; split; compute_done |].
    simpl; split_and!; compute_done.
  - destruct (submit_accepts_trimmed_ignoring_case Scenario.amb
                (setInput Scenario.typed_apple (init [Scenario.apple] 1))
                Scenario.apple eq_refl eq_refl)
      as (s' & Hcall & _ & Hmatch & _).
    exists s'. split; [exact Hcall |]. apply Hmatch.
    exists (String " " (String " " (String "009" ""))), "aPPLe",
           (String " " (String "010" "")).
    split; [reflexivity |].
    split; [simpl; split_and!; compute_done |].
    split; [simpl; split_and!; compute_done |].
    split; [simpl; split; compute_done |].
    simpl; split_and!; compute_done.
  - destruct (submit_accepts_trimmed_ignoring_case Scenario.amb
                (setInput Scenario.typed_aple (init [Scenario.apple] 1))
                Scenario.apple eq_refl eq_refl)
      as (s' & Hcall & _ & _ & Hmismatch).
    exists s'. split; [exact Hcall |].
    assert (¬ matches (input (setInput Scenario.typed_aple (init [Scenario.apple] 1)))
              (Word.text Scenario.apple)) as Hno.
    { intros Hm. apply isCorrect_matches in Hm. discriminate Hm. }
    destruct (Hmismatch Hno) as (Hfb & Herr & _ & Hlearned).
    split; [exact Hfb |]. split; [by rewrite Herr | exact Hlearned].
Defined.

End SpellingFacts.

(** ** Two timers in flight *)
Module RaceFacts.
Import StudyMode.

(** C1 (where the code departs from it).  With the first timer's call
    handled, the cursor of the component is on the entry of [B], as it is
    in the render the second timer was started in, and the queue holds
    the entry requeued for [A].  The second timer's [vague], an advance
    on the entry at the cursor, sets the queue to the one its own render
    had, followed by the new entry for [B]: the entry requeued for [A] is
    gone from the queue. *)
Theorem overtaken_advance_drops_requeued_entry :
  currentItem Scenario.race_on_B = Some Scenario.entry_B ∧
  currentItem Scenario.race_timer_1 = Some Scenario.entry_B ∧
  queue Scenario.race_on_B = [Scenario.entry_A; Scenario.entry_B] ∧
  queue Scenario.race_timer_1
    = [Scenario.entry_A; Scenario.entry_B; Scenario.requeued_A] ∧
  ∃ st',
    handleResponse (Scenario.at_ 3) vague Scenario.race_on_B Scenario.race_timer_1
      = Returns (st', None) ∧
    queue st' = [Scenario.entry_A; Scenario.entry_B; Scenario.requeued_B] ∧
    currentIndex st' = 2 ∧
    Scenario.requeued_A ∈ queue Scenario.race_timer_1 ∧
    Scenario.requeued_A ∉ queue st'.
Proof.
  split_and!; [reflexivity | reflexivity | reflexivity | reflexivity |].
  eexists. split; [reflexivity |].
  split_and!; [reflexivity | reflexivity | |].
  - do 2 apply list_elem_of_further. apply list_elem_of_here.
  - simpl. rewrite !elem_of_cons, elem_of_nil.
    intros [[=] | [[=] | [[=] | []]]].
Qed.

End RaceFacts.
